(** * Veille AAP/AMI: the opportunity data layer

    A shallow embedding of [assets/js/utils.js], [assets/js/store.js] and the
    query and export parts of [assets/js/ui.js], followed by the properties
    of the data layer that the design document states.

    Conventions of the embedding.
    - A JavaScript string is a [string] holding its UTF-8 bytes.
    - A JSON number is an integer [Z] (the score fields are integers and the
      Normalizer only ever prints a number); [NaN] is [None] where a
      computation can produce it.
    - An object is the finite map of its own properties, [gmap string value].
      Names inherited from a prototype are not part of the map, so the
      identifiers and field names that are looked up are own keys.
    - What the host provides and the repository does not define (date
      parsing, case folding, collation, numeric parsing) is a field of the
      class [Platform]. *)

From Stdlib Require Import ZArith Ascii String List Lia Permutation Sorted.
From stdpp Require Import gmap strings list fin_maps pretty.

#[local] Set Warnings "-register-all".
#[local] Open Scope Z_scope.

(** ** JSON values *)

Inductive value :=
  | VNull
  | VBool (b : bool)
  | VNum (n : Z)
  | VStr (s : string)
  | VArr (l : list value)
  | VObj (m : gmap string value).

(** ToBoolean. *)
Definition truthy (v : value) : bool :=
  match v with
  | VNull => false
  | VBool b => b
  | VNum n => negb (n =? 0)
  | VStr s => negb (String.eqb s "")
  | VArr _ | VObj _ => true
  end.

(** [a || b] on values. *)
Definition js_or (a : option value) (b : value) : value :=
  match a with
  | Some v => if truthy v then v else b
  | None => b
  end.

(** [Array.prototype.join]: [null] and [undefined] elements print as the
    empty string, every other element through ToString. *)
Fixpoint join_strings (sep : string) (l : list string) : string :=
  match l with
  | [] => ""
  | [x] => x
  | x :: rest => x +:+ sep +:+ join_strings sep rest
  end.

(** ToString on a JSON value. *)
Fixpoint to_string (v : value) : string :=
  match v with
  | VNull => "null"
  | VBool true => "true"
  | VBool false => "false"
  | VNum n => pretty n
  | VStr s => s
  | VArr l =>
      join_strings ","
        ((fix elements (l : list value) : list string :=
            match l with
            | [] => []
            | VNull :: rest => "" :: elements rest
            | x :: rest => to_string x :: elements rest
            end) l)
  | VObj _ => "[object Object]"
  end.

Definition element_string (v : value) : string :=
  match v with
  | VNull => ""
  | _ => to_string v
  end.

Definition js_join (sep : string) (l : list value) : string :=
  join_strings sep (map element_string l).

(** ** Results of operations that can throw *)

Inductive result (A : Type) :=
  | Ok (a : A)
  | TypeError.
Arguments Ok {A} a.
Arguments TypeError {A}.

#[global] Instance result_ret : MRet result := λ A a, Ok a.
#[global] Instance result_fmap : FMap result := λ A B f r,
  match r with
  | Ok a => Ok (f a)
  | TypeError => TypeError
  end.
#[global] Instance result_bind : MBind result := λ A B k r,
  match r with
  | Ok a => k a
  | TypeError => TypeError
  end.

(** ** The host platform *)

Class Platform := {
  (** the time value of [new Date(v)], [None] when it is [NaN] *)
  Date_parse : value → option Z;
  (** [Date.prototype.toISOString] of a valid time value *)
  Date_toISOString : Z → string;
  (** the time value of local midnight today,
      [new Date(now.toDateString()).getTime()] *)
  today : Z;
  (** [String.prototype.toLowerCase] *)
  toLowerCase : string → string;
  (** [String.prototype.localeCompare] *)
  localeCompare : string → string → Z;
  (** [Number(s)] on a string, [None] when it is [NaN] *)
  StringToNumber : string → option Z
}.

(** ** utils.js *)

Definition PIPELINE_STATUSES : list string :=
  ["À qualifier"; "En analyse"; "Go"; "No-Go"; "Déposé"; "Abandonné"].

Definition asArray (v : value) : list value :=
  match v with
  | VArr l => l
  | VNull => []
  | VStr "" => []
  | _ => [v]
  end.

(** [record[key]] on own properties: reading a property of [null] throws; a
    primitive or an array owns none of the keys the Normalizer asks for. *)
Definition prop (record : value) (key : string) : result (option value) :=
  match record with
  | VNull => TypeError
  | VObj m => Ok (m !! key)
  | _ => Ok None
  end.

(** [x != null && x !== ""] *)
Definition usable (x : option value) : bool :=
  match x with
  | None | Some VNull | Some (VStr "") => false
  | Some _ => true
  end.

Fixpoint pick (record : value) (keys : list string) (fallback : value)
  : result value :=
  match keys with
  | [] => Ok fallback
  | key :: rest =>
      x ← prop record key;
      match x with
      | Some v => if usable x then Ok v else pick record rest fallback
      | None => pick record rest fallback
      end
  end.

(** [String.prototype.includes] *)
Fixpoint includes (haystack needle : string) : bool :=
  String.prefix needle haystack ||
  match haystack with
  | EmptyString => false
  | String _ rest => includes rest needle
  end.

Section utils.
Context `{Platform}.

Definition parseDate (v : value) : option Z :=
  if truthy v then Date_parse v else None.

Definition toISODate (v : value) : string :=
  match parseDate v with
  | None => ""
  | Some d => substring 0 10 (Date_toISOString d)
  end.

(** [Math.ceil(ms / 86400000)] *)
Definition daysUntil (v : value) : option Z :=
  match parseDate v with
  | None => None
  | Some d => Some (- ((today - d) / 86400000))
  end.

Definition textIncludes (haystack needle : string) : bool :=
  includes (toLowerCase haystack) (toLowerCase needle).
End utils.

(** *** csvEscape *)

Definition dquote : ascii := ascii_of_nat 34.
Definition comma : ascii := ascii_of_nat 44.
Definition newline : ascii := ascii_of_nat 10.
Definition semicolon : ascii := ascii_of_nat 59.

(** The character class of the regular expression in [csvEscape]:
    double quote, comma, line feed, semicolon. *)
Definition csv_special (c : ascii) : bool :=
  Ascii.eqb c dquote || Ascii.eqb c comma || Ascii.eqb c newline
  || Ascii.eqb c semicolon.

Fixpoint string_exists (p : ascii → bool) (s : string) : bool :=
  match s with
  | EmptyString => false
  | String c rest => p c || string_exists p rest
  end.

(** [str.replaceAll]: every double quote is doubled. *)
Fixpoint double_quotes (s : string) : string :=
  match s with
  | EmptyString => EmptyString
  | String c rest =>
      if Ascii.eqb c dquote
      then String dquote (String dquote (double_quotes rest))
      else String c (double_quotes rest)
  end.

(** [(value ?? "").toString()] *)
Definition nullish_to_string (v : option value) : string :=
  match v with
  | None | Some VNull => ""
  | Some x => to_string x
  end.

Definition csvEscape (v : option value) : string :=
  let str := nullish_to_string v in
  if string_exists csv_special str
  then String dquote (double_quotes str) +:+ String dquote EmptyString
  else str.

(** *** recommendation *)

Definition code (c : ascii) : nat := nat_of_ascii c.

(** TAB, LF, VT, FF, CR, SP *)
Definition ascii_space (c : ascii) : bool :=
  ((9 <=? code c) && (code c <=? 13))%nat || (code c =? 32)%nat.

(** The three-byte white space and line terminator characters:
    U+1680, U+2000..U+200A, U+2028, U+2029, U+202F, U+205F, U+3000, U+FEFF. *)
Definition space3 (a b c : nat) : bool :=
  ((a =? 225) && (b =? 154) && (c =? 128)
   || (a =? 226) && (b =? 128)
      && ((128 <=? c) && (c <=? 138) || (c =? 168) || (c =? 169) || (c =? 175))
   || (a =? 226) && (b =? 129) && (c =? 159)
   || (a =? 227) && (b =? 128) && (c =? 128)
   || (a =? 239) && (b =? 187) && (c =? 191))%nat.

(** One white space character at the head of a byte list; [backwards] reads
    the bytes of a reversed string. Gives what follows the character. *)
Definition space_head (backwards : bool) (l : list ascii)
  : option (list ascii) :=
  match l with
  | x :: r1 =>
      if ascii_space x then Some r1 else
      match r1 with
      | y :: r2 =>
          let (a, b) := if backwards then (y, x) else (x, y) in
          if ((code a =? 194) && (code b =? 160))%nat then Some r2 else
          match r2 with
          | z :: r3 =>
              let (a, c) := if backwards then (z, x) else (x, z) in
              if space3 (code a) (code y) (code c) then Some r3 else None
          | [] => None
          end
      | [] => None
      end
  | [] => None
  end.

Fixpoint drop_spaces (fuel : nat) (backwards : bool) (l : list ascii)
  : list ascii :=
  match fuel with
  | O => l
  | S fuel =>
      match space_head backwards l with
      | Some rest => drop_spaces fuel backwards rest
      | None => l
      end
  end.

(** [String.prototype.trim] *)
Definition trim (s : string) : string :=
  let l := list_ascii_of_string s in
  let l := drop_spaces (length l) false l in
  let l := drop_spaces (length l) true (rev l) in
  string_of_list_ascii (rev l).

(** A number or [NaN] compared with a threshold: [score >= n]. *)
Definition number_ge (score : option Z) (n : Z) : bool :=
  match score with
  | Some z => n <=? z
  | None => false
  end.

(** [blockers] is [undefined] or a string. *)
Definition recommendation (score : option Z) (blockers : option string)
  : string :=
  if match blockers with
     | Some b => negb (String.eqb (trim b) "")
     | None => false
     end
  then "No-Go (blockers)"
  else if number_ge score 20 then "Go"
  else if number_ge score 12 then "À approfondir"
  else "No-Go".

(** ** store.js *)

Module Op.
(** A normalized opportunity. [title] and [sourceUrl] are whatever value
    the record holds; the joined fields and the deadline are strings. *)
Record t := {
  id : string;
  title : value;
  type : string;
  category : string;
  axis : string;
  territory : string;
  deadline : string;
  sourceUrl : value;
  raw : value
}.
End Op.

(** The payload of a dataset file or of a snapshot, seen through the fields
    the store reads. [local] is [Some] for a truthy object (a mapping from
    identifier to annotation object), [None] when the field is missing or
    fails the test [payload.local && typeof payload.local === object]. *)
Module Payload.
Record object := {
  _meta : option value;
  opportunities : option value;
  items : option value;
  local : option (gmap string (gmap string value))
}.
End Payload.

Inductive payload :=
  | PArray (records : list value)
  | PObject (o : Payload.object)
  | PPrimitive.

Record State := {
  meta : value;
  opportunities : list Op.t;
  local : gmap string (gmap string value);
  rawDataPath : option string;
  loadError : string
}.

(** The item kept under [LOCAL_KEY] in the durable storage. *)
Inductive item :=
  | Absent
  | Corrupt
  | Blob (o : gmap string (gmap string value)).

Record Store := {
  state : State;
  localStorage : item
}.

(** How a call that can throw ends, with the state it leaves. *)
Inductive outcome (S : Type) :=
  | Returned (s : S)
  | Threw (s : S).
Arguments Returned {S} s.
Arguments Threw {S} s.

Definition final {S} (o : outcome S) : S :=
  match o with
  | Returned s | Threw s => s
  end.

Definition DATA_CANDIDATES : list string :=
  ["data/opportunities.seed.json"; "./data/opportunities.json";
   "./data/data.json"].

Definition LOAD_ERROR : string :=
  "Impossible de charger automatiquement un fichier JSON depuis ./data. Utilisez Importer JSON.".

Definition set_meta (m : value) (s : State) : State :=
  {| meta := m; opportunities := opportunities s; local := local s;
     rawDataPath := rawDataPath s; loadError := loadError s |}.

Definition set_opportunities (l : list Op.t) (s : State) : State :=
  {| meta := meta s; opportunities := l; local := local s;
     rawDataPath := rawDataPath s; loadError := loadError s |}.

Definition set_local (o : gmap string (gmap string value)) (s : State)
  : State :=
  {| meta := meta s; opportunities := opportunities s; local := o;
     rawDataPath := rawDataPath s; loadError := loadError s |}.

Definition set_loaded (path : string) (s : State) : State :=
  {| meta := meta s; opportunities := opportunities s; local := local s;
     rawDataPath := Some path; loadError := "" |}.

Definition set_loadError (msg : string) (s : State) : State :=
  {| meta := meta s; opportunities := opportunities s; local := local s;
     rawDataPath := rawDataPath s; loadError := msg |}.

(** What a candidate source answers: the request fails, or a response comes
    back with its [ok] flag and the result of [response.json()], [None] when
    the body does not parse. *)
Inductive fetched :=
  | NetworkError
  | Response (ok : bool) (json : option payload).

Definition loadLocalState (i : item) : gmap string (gmap string value) :=
  match i with
  | Blob o => o
  | Absent | Corrupt => ∅
  end.

Definition default_score : gmap string value :=
  {[ "strategic_fit" := VNum 0; "eligibility" := VNum 0; "effort" := VNum 0;
     "impact" := VNum 0; "timing" := VNum 0; "blockers" := VStr "" ]}.

Definition default_annotation : gmap string value :=
  {[ "notes" := VStr ""; "status" := VStr (hd "" PIPELINE_STATUSES);
     "owner" := VStr ""; "nextAction" := VStr ""; "nextDate" := VStr "";
     "score" := VObj default_score ]}.

(** [state.local[id] || { ...defaults }]: an entry is an object, hence
    truthy. *)
Definition getLocal (s : State) (id : string) : gmap string value :=
  match local s !! id with
  | Some a => a
  | None => default_annotation
  end.

Definition persistLocalState (s : State) : Store :=
  {| state := s; localStorage := Blob (local s) |}.

(** [{ ...getLocal(id), ...patch }]: the fields of the patch win. *)
Definition patchLocal (id : string) (patch : gmap string value) (w : Store)
  : Store :=
  let s := state w in
  persistLocalState (set_local (<[id := patch ∪ getLocal s id]> (local s)) s).

(** The own properties a spread copies; the score is an object or is
    missing. *)
Definition spread (v : option value) : gmap string value :=
  match v with
  | Some (VObj m) => m
  | _ => ∅
  end.

Definition patchScore (id : string) (scorePatch : gmap string value)
  (w : Store) : Store :=
  let current := getLocal (state w) id in
  patchLocal id {[ "score" := VObj (scorePatch ∪ spread (current !! "score")) ]} w.

(** [Array.prototype.indexOf] with strict equality against strings:
    the position of the first match, [-1] without one. *)
Fixpoint indexOf (l : list string) (x : option value) : Z :=
  match l with
  | [] => -1
  | s :: rest =>
      if match x with Some (VStr t) => String.eqb s t | _ => false end
      then 0
      else let i := indexOf rest x in if i <? 0 then -1 else i + 1
  end.

(** [l[i]] for an integer [i]. *)
Definition at_index (l : list string) (i : Z) : option string :=
  if i <? 0 then None else l !! Z.to_nat i.

Definition moveStatus (id : string) (direction : Z) (w : Store) : Store :=
  let current := getLocal (state w) id in
  let index := indexOf PIPELINE_STATUSES (current !! "status") in
  if index <? 0 then w else
  match at_index PIPELINE_STATUSES (index + direction) with
  | None => w
  | Some next =>
      if String.eqb next "" then w
      else patchLocal id {[ "status" := VStr next ]} w
  end.

Definition exportSnapshot (s : State) : Payload.object :=
  {| Payload._meta := Some (meta s);
     Payload.opportunities := Some (VArr (map Op.raw (opportunities s)));
     Payload.items := None;
     Payload.local := Some (local s) |}.

Section store.
Context `{Platform}.

Definition normalizeOpportunity (record : value) (index : nat)
  : result Op.t :=
  id ← pick record ["id"; "slug"; "uid"; "name"; "title"]
         (VStr ("op-" +:+ pretty (index + 1)%nat));
  title ← pick record ["title"; "name"; "label"] (VStr "Sans titre");
  type ← pick record ["type"; "opportunity_type"; "program_type"] (VStr "");
  category ← pick record ["category"; "categories"; "theme"] (VStr "");
  axis ← pick record ["axis"; "axe"; "axes"] (VStr "");
  territory ← pick record ["territory"; "location"; "zone"] (VStr "");
  deadline ← pick record ["deadline"; "application_deadline"; "end_date"]
               (VStr "");
  sourceUrl ← pick record ["url"; "source_url"; "link"] (VStr "");
  mret {| Op.id := to_string id;
          Op.title := title;
          Op.type := js_join ", " (asArray type);
          Op.category := js_join ", " (asArray category);
          Op.axis := js_join ", " (asArray axis);
          Op.territory := js_join ", " (asArray territory);
          Op.deadline := toISODate deadline;
          Op.sourceUrl := sourceUrl;
          Op.raw := record |}.

(** [records.map((record, index) => normalizeOpportunity(record, index))]
    for the records from position [index] on. *)
Fixpoint normalize_from (index : nat) (records : list value)
  : result (list Op.t) :=
  match records with
  | [] => mret []
  | record :: rest =>
      o ← normalizeOpportunity record index;
      os ← normalize_from (S index) rest;
      mret (o :: os)
  end.

Definition source_of (o : Payload.object) : list value :=
  match Payload.opportunities o with
  | Some (VArr l) => l
  | _ =>
      match Payload.items o with
      | Some (VArr l) => l
      | _ => []
      end
  end.

(** [meta] is assigned before the records are mapped, so a record that
    makes the Normalizer throw leaves the new [meta] behind. *)
Definition hydrate (m : value) (source : list value) (s : State)
  : outcome State :=
  let s := set_meta m s in
  match normalize_from 0 source with
  | Ok l => Returned (set_opportunities l s)
  | TypeError => Threw s
  end.

Definition hydrateFromPayload (p : payload) (s : State) : outcome State :=
  match p with
  | PArray records => hydrate (VObj ∅) records s
  | PObject o => hydrate (js_or (Payload._meta o) (VObj ∅)) (source_of o) s
  | PPrimitive => hydrate (VObj ∅) [] s
  end.

(** The loop of [loadDataset] over the candidates that are left; the second
    component lists the paths that were fetched, in order. *)
Fixpoint load_from (fetch : string → fetched) (candidates : list string)
  (s : State) : State * list string :=
  match candidates with
  | [] => (set_loadError LOAD_ERROR s, [])
  | path :: rest =>
      let continue s := let (s', log) := load_from fetch rest s in
                        (s', path :: log) in
      match fetch path with
      | NetworkError => continue s
      | Response false _ => continue s
      | Response true None => continue s
      | Response true (Some p) =>
          match hydrateFromPayload p s with
          | Returned s' => (set_loaded path s', [path])
          | Threw s' => continue s'
          end
      end
  end.

Definition loadDataset (fetch : string → fetched) (s : State)
  : State * list string :=
  load_from fetch DATA_CANDIDATES s.

Definition importSnapshot (p : payload) (w : Store) : outcome Store :=
  let o := match p with PObject o => Some o | _ => None end in
  let hydrated :=
    match o ≫= Payload.opportunities with
    | Some (VArr _) => hydrateFromPayload p (state w)
    | _ => Returned (state w)
    end in
  match hydrated with
  | Threw s => Threw {| state := s; localStorage := localStorage w |}
  | Returned s =>
      match o ≫= Payload.local with
      | Some l => Returned (persistLocalState (set_local l s))
      | None => Returned {| state := s; localStorage := localStorage w |}
      end
  end.

(** [createStore]: the state a store starts from. *)
Definition createStore (storage : item) : Store :=
  {| state := {| meta := VObj ∅; opportunities := [];
                 local := loadLocalState storage;
                 rawDataPath := None; loadError := "" |};
     localStorage := storage |}.
End store.

(** ** ui.js: the query engine, the CSV export and the drawer total *)

Module Filters.
Record t := {
  search : string;
  type : string;
  category : string;
  axis : string;
  territory : string;
  min : string;
  max : string;
  urgent : bool;
  sort : string
}.
End Filters.

(** [Array.prototype.sort] with a comparison function: the sort is stable,
    so for a consistent comparison it is the insertion of each element, from
    the last to the first, in front of the first element it does not
    exceed. *)
Section sort.
Context {A : Type} (compare : A → A → Z).

Fixpoint insert_sorted (x : A) (l : list A) : list A :=
  match l with
  | [] => [x]
  | y :: rest =>
      if compare x y <=? 0 then x :: y :: rest
      else y :: insert_sorted x rest
  end.

Fixpoint js_sort (l : list A) : list A :=
  match l with
  | [] => []
  | x :: rest => insert_sorted x (js_sort rest)
  end.
End sort.

(** [op.deadline || 9999-12-31] *)
Definition due (o : Op.t) : string :=
  if String.eqb (Op.deadline o) "" then "9999-12-31" else Op.deadline o.

(** [(!filters.min || due >= filters.min) && (!filters.max || due <= filters.max)],
    strings being compared unit by unit. *)
Definition inRange (f : Filters.t) (d : string) : bool :=
  (String.eqb (Filters.min f) "" || String.leb (Filters.min f) d)
  && (String.eqb (Filters.max f) "" || String.leb d (Filters.max f)).

(** [!filter || value === filter] *)
Definition matches (filter v : string) : bool :=
  String.eqb filter "" || String.eqb v filter.

Definition field (a : gmap string value) (k : string) : value :=
  match a !! k with
  | Some v => v
  | None => VNull
  end.

Section ui.
Context `{Platform}.

Definition keep (s : State) (f : Filters.t) (o : Op.t) : bool :=
  let local := getLocal s (Op.id o) in
  let text :=
    js_join " " [Op.title o; VStr (Op.type o); VStr (Op.category o);
                 VStr (Op.axis o); VStr (Op.territory o);
                 field local "notes"] in
  let urgent :=
    negb (Filters.urgent f)
    || match daysUntil (VStr (Op.deadline o)) with
       | Some days => days <? 7
       | None => 999 <? 7
       end in
  textIncludes text (Filters.search f)
  && matches (Filters.type f) (Op.type o)
  && matches (Filters.category f) (Op.category o)
  && matches (Filters.axis f) (Op.axis o)
  && matches (Filters.territory f) (Op.territory o)
  && inRange f (due o)
  && urgent.

Definition by_deadline (f : Filters.t) (a b : Op.t) : Z :=
  if String.eqb (Filters.sort f) "asc"
  then localeCompare (due a) (due b)
  else localeCompare (due b) (due a).

Definition filteredOpportunities (s : State) (f : Filters.t) : list Op.t :=
  js_sort (by_deadline f) (filter (λ o, keep s f o = true) (opportunities s)).








End ui.

(** ** The data model of the design document *)




(** ** A reference host

    A host on which the model runs: dates are ISO calendar dates counted in
    milliseconds from 1970-01-01, letters are folded in ASCII and strings
    are collated byte by byte. *)

Module Host.
Definition days_from_civil (y m d : Z) : Z :=
  let y := if m <=? 2 then y - 1 else y in
  let era := y / 400 in
  let yoe := y - era * 400 in
  let doy := (153 * (if 2 <? m then m - 3 else m + 9) + 2) / 5 + d - 1 in
  let doe := yoe * 365 + yoe / 4 - yoe / 100 + doy in
  era * 146097 + doe - 719468.

Definition civil_from_days (z : Z) : Z * Z * Z :=
  let z := z + 719468 in
  let era := z / 146097 in
  let doe := z - era * 146097 in
  let yoe := (doe - doe / 1460 + doe / 36524 - doe / 146096) / 365 in
  let doy := doe - (365 * yoe + yoe / 4 - yoe / 100) in
  let mp := (5 * doy + 2) / 153 in
  let d := doy - (153 * mp + 2) / 5 + 1 in
  let m := if mp <? 10 then mp + 3 else mp - 9 in
  ((if m <=? 2 then yoe + era * 400 + 1 else yoe + era * 400), m, d).

Definition digit (c : ascii) : option Z :=
  let n := Z.of_nat (nat_of_ascii c) in
  if (48 <=? n) && (n <=? 57) then Some (n - 48) else None.

Fixpoint digits (acc : Z) (s : string) : option Z :=
  match s with
  | EmptyString => Some acc
  | String c rest =>
      match digit c with
      | Some n => digits (acc * 10 + n) rest
      | None => None
      end
  end.

Definition number (s : string) : option Z :=
  match s with
  | EmptyString => None
  | _ => digits 0 s
  end.

Definition parse_iso (s : string) : option Z :=
  if (String.length s =? 10)%nat
     && String.eqb (substring 4 1 s) "-" && String.eqb (substring 7 1 s) "-"
  then
    match number (substring 0 4 s), number (substring 5 2 s),
          number (substring 8 2 s) with
    | Some y, Some m, Some d =>
        if (1 <=? m) && (m <=? 12) && (1 <=? d)
           && (days_from_civil y m d + 1 <=? days_from_civil
                 (if m =? 12 then y + 1 else y)
                 (if m =? 12 then 1 else m + 1) 1)
        then Some (days_from_civil y m d * 86400000)
        else None
    | _, _, _ => None
    end
  else None.

Fixpoint zeros (n : nat) : string :=
  match n with
  | O => EmptyString
  | S n => String "0" (zeros n)
  end.

Definition pad (width : nat) (n : Z) : string :=
  let s := pretty n in
  zeros (width - String.length s) +:+ s.

Definition iso (t : Z) : string :=
  let '(y, m, d) := civil_from_days (t / 86400000) in
  let ms := t mod 86400000 in
  let year :=
    if (0 <=? y) && (y <=? 9999) then pad 4 y
    else (if y <? 0 then "-" else "+") +:+ pad 6 (Z.abs y) in
  year +:+ "-" +:+ pad 2 m +:+ "-" +:+ pad 2 d +:+ "T"
  +:+ pad 2 (ms / 3600000) +:+ ":" +:+ pad 2 (ms / 60000 mod 60) +:+ ":"
  +:+ pad 2 (ms / 1000 mod 60) +:+ "." +:+ pad 3 (ms mod 1000) +:+ "Z".

Definition lower (c : ascii) : ascii :=
  let n := nat_of_ascii c in
  if ((65 <=? n) && (n <=? 90))%nat then ascii_of_nat (n + 32) else c.

Fixpoint lowercase (s : string) : string :=
  match s with
  | EmptyString => EmptyString
  | String c rest => String (lower c) (lowercase rest)
  end.

Definition collate (a b : string) : Z :=
  match String.compare a b with
  | Lt => -1
  | Eq => 0
  | Gt => 1
  end.

Definition to_number (s : string) : option Z :=
  match trim s with
  | EmptyString => Some 0
  | String "-" rest => Z.opp <$> number rest
  | t => number t
  end.

Definition platform : Platform :=
  {| Date_parse v :=
       match v with
       | VStr s => parse_iso s
       | VNum n => Some n
       | _ => None
       end;
     Date_toISOString := iso;
     today := days_from_civil 2024 1 1 * 86400000;
     toLowerCase := lowercase;
     localeCompare := collate;
     StringToNumber := to_number |}.
End Host.

(** ** The store as the presentation layer drives it *)

Inductive call :=
  | LoadDataset (fetch : string → fetched)
  | GetLocal (id : string)
  | PatchLocal (id : string) (patch : gmap string value)
  | PatchScore (id : string) (scorePatch : gmap string value)
  | MoveStatus (id : string) (direction : Z)
  | ExportSnapshot
  | ImportSnapshot (p : payload).

Section calls.
Context `{Platform}.

(** The store a call leaves behind. [getLocal] and [exportSnapshot] only
    read; [loadDataset] works on the state alone; a call that throws leaves
    what it had written so far. *)
Definition run (c : call) (w : Store) : Store :=
  match c with
  | LoadDataset fetch =>
      {| state := (loadDataset fetch (state w)).1;
         localStorage := localStorage w |}
  | GetLocal _ => w
  | PatchLocal id patch => patchLocal id patch w
  | PatchScore id scorePatch => patchScore id scorePatch w
  | MoveStatus id direction => moveStatus id direction w
  | ExportSnapshot => w
  | ImportSnapshot p => final (importSnapshot p w)
  end.

(** The stores that a sequence of calls reaches from a fresh store. *)
Inductive reachable : Store → Prop :=
  | reachable_create (storage : item) : reachable (createStore storage)
  | reachable_run (c : call) (w : Store) :
      reachable w → reachable (run c w).
End calls.


(** The keys an identifier is accepted from, in order. *)
Definition ID_KEYS : list string := ["id"; "slug"; "uid"; "name"; "title"].

(** The record holds a usable value under one of the identifier keys. *)
Definition supplies_identifier (record : value) : bool :=
  existsb (λ key, match prop record key with
                  | Ok x => usable x
                  | TypeError => false
                  end) ID_KEYS.

(** The raw records a payload carries. *)
Definition records_of (p : payload) : list value :=
  match p with
  | PArray records => records
  | PObject o => source_of o
  | PPrimitive => []
  end.

(** The three ways a candidate source fails to deliver a payload: the
    request fails, the response is not a success, the body does not parse. *)
Definition failed (r : fetched) : bool :=
  match r with
  | NetworkError | Response false _ | Response true None => true
  | Response true (Some _) => false
  end.

(** The merged view: each opportunity with its annotation. *)
Definition merged_view (s : State) : list (Op.t * gmap string value) :=
  map (λ o, (o, getLocal s (Op.id o))) (opportunities s).

(** ** Sample data *)

Definition two_bare_records : payload :=
  PArray [VObj {[ "label" := VStr "Appel A" ]};
          VObj {[ "label" := VStr "Appel B" ]}].

(** Every source is out of reach, each in its own way. *)
Definition fetch_nothing (path : string) : fetched :=
  if String.eqb path "data/opportunities.seed.json" then NetworkError
  else if String.eqb path "./data/opportunities.json"
       then Response false (Some two_bare_records)
       else Response true None.

(** The second source answers; the third would too. *)
Definition fetch_second (path : string) : fetched :=
  if String.eqb path "data/opportunities.seed.json" then NetworkError
  else if String.eqb path "./data/opportunities.json"
       then Response true (Some two_bare_records)
       else Response true (Some (PArray [])).

(** A payload whose second record is [null]. *)
Definition broken_payload : payload :=
  PObject {| Payload._meta := Some (VObj {[ "generated_at" := VStr "hier" ]});
             Payload.opportunities :=
               Some (VArr [VObj {[ "label" := VStr "Appel A" ]}; VNull]);
             Payload.items := None;
             Payload.local := None |}.

(** A store reached by a failed load, a patch on an identifier that no
    opportunity carries, and a successful load. *)
Definition sample_store : Store :=
  @run Host.platform (LoadDataset fetch_second)
    (@run Host.platform (PatchLocal "delisted" {[ "owner" := VStr "X" ]})
       (@run Host.platform (LoadDataset fetch_nothing) (createStore Absent))).

(** The opportunities of a state are what the Normalizer makes of their
    own raw records, in order; [meta] is never falsy. Every reachable store
    is in this shape. *)
Definition hydrated `{Platform} (s : State) : Prop :=
  normalize_from 0 (map Op.raw (opportunities s)) = Ok (opportunities s)
  ∧ truthy (meta s) = true.

(** A collation is consistent when it orders strings totally: swapping the
    arguments swaps the sign, and the order is transitive. *)
Class Collation `{Platform} : Prop := {
  localeCompare_flip (a b : string) :
    Z.sgn (localeCompare b a) = - Z.sgn (localeCompare a b);
  localeCompare_trans (a b c : string) :
    localeCompare a b ≤ 0 → localeCompare b c ≤ 0 → localeCompare a c ≤ 0
}.

Definition no_filter (sort : string) : Filters.t :=
  {| Filters.search := ""; Filters.type := ""; Filters.category := "";
     Filters.axis := ""; Filters.territory := ""; Filters.min := "";
     Filters.max := ""; Filters.urgent := false; Filters.sort := sort |}.

(** A dataset with an undated call, a call due on the last day the
    substitution stands for, and a call due in 2024. *)
Definition dated_records : payload :=
  PArray [VObj {[ "id" := VStr "sans-date" ]};
          VObj {[ "id" := VStr "lointain"; "deadline" := VStr "9999-12-31" ]};
          VObj {[ "id" := VStr "proche"; "deadline" := VStr "2024-06-01" ]}].

Definition dated_state : State :=
  final (@hydrateFromPayload Host.platform dated_records
           (state (createStore Absent))).

(** ** The rest of utils.js and of the views *)

(** [[...new Set(l)]]: each string once, at its first occurrence. *)
Fixpoint distinct (seen l : list string) : list string :=
  match l with
  | [] => []
  | x :: rest =>
      if bool_decide (x ∈ seen) then distinct seen rest
      else x :: distinct (x :: seen) rest
  end.

(** [uniqueValues(items, accessor)] for an accessor that gives strings, as
    all four calls in [renderTable] do; [compare] is the collation of
    [a.localeCompare(b, fr)]. *)
Definition uniqueValues {A : Type} (compare : string → string → Z)
  (items : list A) (accessor : A → string) : list string :=
  js_sort compare
    (distinct [] (filter (λ v, v ≠ "") (map accessor items))).

(** [store.getLocal(op.id).status === status] *)
Definition has_status (s : State) (status : string) (o : Op.t) : bool :=
  match getLocal s (Op.id o) !! "status" with
  | Some (VStr t) => String.eqb t status
  | _ => false
  end.

(** The cards of each kanban column, as [renderKanban] selects them. *)
Definition kanban_columns (s : State) : list (string * list Op.t) :=
  map (λ status,
         (status, filter (λ o, has_status s status o = true) (opportunities s)))
    PIPELINE_STATUSES.

(** [store.state.opportunities.find((o) => o.id === id)] in [openDrawer]. *)
Definition find_opportunity (s : State) (id : string) : option Op.t :=
  List.find (λ o, String.eqb (Op.id o) id) (opportunities s).

Section dashboard.
Context `{Platform}.

(** [(daysUntil(op.deadline) ?? 999) < 7] *)
Definition is_urgent (o : Op.t) : bool :=
  match daysUntil (VStr (Op.deadline o)) with
  | Some days => days <? 7
  | None => 999 <? 7
  end.

(** The three figures of [renderDashboard]: total, urgent, Go. *)
Definition dashboard_counts (s : State) (f : Filters.t) : nat * nat * nat :=
  let items := filteredOpportunities s f in
  (length items,
   length (filter (λ o, is_urgent o = true) items),
   length (filter (λ o, has_status s "Go" o = true) items)).

(** [renderDashboard]: the error card ([None]) when a load error is set,
    the three figures otherwise. *)
Definition renderDashboard (s : State) (f : Filters.t)
  : option (nat * nat * nat) :=
  if String.eqb (loadError s) "" then Some (dashboard_counts s f) else None.
End dashboard.

(** ** Reading a CSV field back

    What a reader of the export does with one field: a field that opens with
    a double quote is taken up to its closing quote, a doubled quote standing
    for one. *)
Fixpoint unquote (s : string) : string :=
  match s with
  | EmptyString => EmptyString
  | String c rest =>
      if Ascii.eqb c dquote then
        match rest with
        | String d rest' =>
            if Ascii.eqb d dquote then String dquote (unquote rest')
            else EmptyString
        | EmptyString => EmptyString
        end
      else String c (unquote rest)
  end.

Definition csvUnescape (s : string) : string :=
  match s with
  | String c rest => if Ascii.eqb c dquote then unquote rest else s
  | EmptyString => s
  end.

(** The keys the Normalizer reads each field from. *)
Definition TITLE_KEYS : list string := ["title"; "name"; "label"].
Definition TYPE_KEYS : list string :=
  ["type"; "opportunity_type"; "program_type"].
Definition CATEGORY_KEYS : list string := ["category"; "categories"; "theme"].
Definition AXIS_KEYS : list string := ["axis"; "axe"; "axes"].
Definition TERRITORY_KEYS : list string := ["territory"; "location"; "zone"].
Definition DEADLINE_KEYS : list string :=
  ["deadline"; "application_deadline"; "end_date"].
Definition URL_KEYS : list string := ["url"; "source_url"; "link"].

(** The record holds a usable value under one of [keys]. *)
Definition supplies (record : value) (keys : list string) : bool :=
  existsb (λ key, match prop record key with
                  | Ok x => usable x
                  | TypeError => false
                  end) keys.

(** A dataset file that carries its records under [items]. *)
Definition items_payload : Payload.object :=
  {| Payload._meta := None;
     Payload.opportunities := None;
     Payload.items := Some (VArr [VObj {[ "id" := VStr "aide-9" ]}]);
     Payload.local := None |}.

(** A snapshot with an overlay and a [null] among its records. *)
Definition broken_snapshot : Payload.object :=
  {| Payload._meta := Some (VObj {[ "generated_at" := VStr "hier" ]});
     Payload.opportunities :=
       Some (VArr [VObj {[ "label" := VStr "Appel A" ]}; VNull]);
     Payload.items := None;
     Payload.local := Some {[ "aide-1" := {[ "owner" := VStr "Z" ]} ]} |}.

(** A payload that parses and holds no list of records. *)
Definition shapeless_payload : payload :=
  PObject {| Payload._meta := None;
             Payload.opportunities := Some (VStr "bientôt");
             Payload.items := None;
             Payload.local := None |}.

(** A state with the fields a load writes overwritten: [meta] when a
    payload got as far as the Normalizer, and either the loaded dataset with
    its path and no load error, or the load error alone. *)
Definition overwrite (m : option value) (loaded : option (list Op.t * string))
  (s : State) : State :=
  {| meta := match m with Some v => v | None => meta s end;
     opportunities := match loaded with
                      | Some (l, _) => l
                      | None => opportunities s
                      end;
     local := local s;
     rawDataPath := match loaded with
                    | Some (_, path) => Some path
                    | None => rawDataPath s
                    end;
     loadError := match loaded with
                  | Some _ => ""
                  | None => LOAD_ERROR
                  end |}.

(** * Properties *)

(** ** The model at work *)

Example trim_spaces :
  trim (String (ascii_of_nat 9) "  permis manquant ") = "permis manquant".
Proof. vm_compute. reflexivity. Qed.

Example trim_no_break_space :
  trim (String (ascii_of_nat 194) (String (ascii_of_nat 160) " ")) = "".
Proof. vm_compute. reflexivity. Qed.

Example to_string_array :
  to_string (VArr [VNum 1; VNull; VArr [VStr "a"; VBool true]; VObj ∅])
  = "1,,a,true,[object Object]".
Proof. vm_compute. reflexivity. Qed.

Example toISODate_valid :
  @toISODate Host.platform (VStr "2024-02-29") = "2024-02-29".
Proof. vm_compute. reflexivity. Qed.

Example toISODate_invalid :
  @toISODate Host.platform (VStr "2024-02-30") = "".
Proof. vm_compute. reflexivity. Qed.

Example daysUntil_two_days :
  @daysUntil Host.platform (VStr "2024-01-03") = Some 2.
Proof. vm_compute. reflexivity. Qed.

Example normalize_untitled :
  Op.title <$> @normalizeOpportunity Host.platform
                 (VObj {[ "id" := VNum 12; "theme" := VArr [VStr "eau"; VStr "climat"] ]}) 0
  = Ok (VStr "Sans titre")
  ∧ Op.id <$> @normalizeOpportunity Host.platform
                (VObj {[ "id" := VNum 12 ]}) 0 = Ok "12"
  ∧ Op.category <$> @normalizeOpportunity Host.platform
                      (VObj {[ "theme" := VArr [VStr "eau"; VStr "climat"] ]}) 0
    = Ok "eau, climat"
  ∧ @normalizeOpportunity Host.platform VNull 0 = TypeError.
Proof. vm_compute. repeat split; reflexivity. Qed.

(** ** The recommendation *)






(** ** The CSV export *)





(** ** The overlay store *)

Lemma getLocal_patchLocal (id : string) (patch : gmap string value)
    (w : Store) :
  getLocal (state (patchLocal id patch w)) id = patch ∪ getLocal (state w) id.
Proof. unfold patchLocal, getLocal; simpl. by rewrite lookup_insert_eq. Qed.

Lemma getLocal_patchLocal_ne (id id' : string) (patch : gmap string value)
    (w : Store) :
  id ≠ id' →
  getLocal (state (patchLocal id patch w)) id' = getLocal (state w) id'.
Proof.
  intros Hne. unfold patchLocal, getLocal; simpl.
  by rewrite lookup_insert_ne.
Qed.

Lemma patchLocal_persists (id : string) (patch : gmap string value)
    (w : Store) :
  localStorage (patchLocal id patch w)
  = Blob (local (state (patchLocal id patch w))).
Proof. reflexivity. Qed.

(** [patchScore] merges inside the score and leaves the other fields of
    the annotation alone. *)
Lemma patchScore_merges (id : string) (scorePatch : gmap string value)
    (w : Store) :
  let a := getLocal (state w) id in
  let a' := getLocal (state (patchScore id scorePatch w)) id in
  a' !! "score" = Some (VObj (scorePatch ∪ spread (a !! "score")))
  ∧ ∀ k, k ≠ "score" → a' !! k = a !! k.
Proof.
  intros a a'. subst a a'. unfold patchScore.
  rewrite getLocal_patchLocal. split.
  - apply lookup_union_Some_l, lookup_singleton_eq.
  - intros k Hk. rewrite lookup_union_r; [done|].
    by apply lookup_singleton_ne.
Qed.





(** ** The pipeline *)

Lemma PIPELINE_STATUSES_NoDup : NoDup PIPELINE_STATUSES.
Proof. apply (bool_decide_unpack _). vm_compute. reflexivity. Qed.

Lemma PIPELINE_STATUSES_nonempty (s : string) :
  s ∈ PIPELINE_STATUSES → String.eqb s "" = false.
Proof.
  unfold PIPELINE_STATUSES. intros Hin.
  repeat (apply elem_of_cons in Hin as [-> | Hin]; [reflexivity|]).
  by apply elem_of_nil in Hin.
Qed.

Lemma indexOf_ge (l : list string) (x : option value) : -1 ≤ indexOf l x.
Proof.
  induction l as [|s l IH]; simpl; [lia|].
  destruct (match x with Some (VStr t) => String.eqb s t | _ => false end);
    [lia|].
  destruct (Z.ltb_spec (indexOf l x) 0); lia.
Qed.

Lemma indexOf_found (l : list string) (i : nat) (s : string) :
  NoDup l → l !! i = Some s → indexOf l (Some (VStr s)) = Z.of_nat i.
Proof.
  intros Hnd. revert i. induction Hnd as [|s0 l Hnotin Hnd IH]; intros i Hi.
  - by rewrite lookup_nil in Hi.
  - simpl. destruct i as [|i]; simpl in Hi.
    + injection Hi as ->. by rewrite String.eqb_refl.
    + destruct (String.eqb_spec s0 s) as [->|Hne].
      * exfalso. apply Hnotin. eapply list_elem_of_lookup_2; eauto.
      * rewrite (IH i Hi).
        destruct (Z.ltb_spec (Z.of_nat i) 0); lia.
Qed.

Lemma indexOf_missing (l : list string) (x : option value) :
  (∀ s, x = Some (VStr s) → s ∉ l) → indexOf l x = -1.
Proof.
  intros Hx. induction l as [|s0 l IH]; simpl; [reflexivity|].
  assert (match x with Some (VStr t) => String.eqb s0 t | _ => false end
          = false) as ->.
  { destruct x as [[| | |t| |]|]; try reflexivity.
    apply String.eqb_neq. intros ->.
    apply (Hx t eq_refl). apply elem_of_cons. by left. }
  rewrite IH; [reflexivity|].
  intros s Hs Hin. apply (Hx s Hs). apply elem_of_cons. by right.
Qed.

Lemma at_index_Some (l : list string) (z : Z) :
  0 ≤ z < Z.of_nat (length l) →
  ∃ x, l !! Z.to_nat z = Some x ∧ at_index l z = Some x.
Proof.
  intros Hz. unfold at_index.
  destruct (Z.ltb_spec z 0); [lia|].
  destruct (lookup_lt_is_Some_2 l (Z.to_nat z)) as [x Hx]; [lia|].
  eauto.
Qed.

Lemma at_index_None (l : list string) (z : Z) :
  z < 0 ∨ Z.of_nat (length l) ≤ z → at_index l z = None.
Proof.
  intros Hz. unfold at_index.
  destruct (Z.ltb_spec z 0); [reflexivity|].
  apply lookup_ge_None. lia.
Qed.

(** What [moveStatus] does when the current status stands at position [i]. *)
Lemma moveStatus_found (w : Store) (id : string) (d : Z) (i : nat)
    (s : string) :
  PIPELINE_STATUSES !! i = Some s →
  getLocal (state w) id !! "status" = Some (VStr s) →
  moveStatus id d w
  = match at_index PIPELINE_STATUSES (Z.of_nat i + d) with
    | Some next => patchLocal id {[ "status" := VStr next ]} w
    | None => w
    end.
Proof.
  intros Hi Hs. unfold moveStatus. rewrite Hs.
  rewrite (indexOf_found _ i s PIPELINE_STATUSES_NoDup Hi).
  destruct (Z.ltb_spec (Z.of_nat i) 0); [lia|].
  destruct (at_index PIPELINE_STATUSES (Z.of_nat i + d)) as [next|] eqn:Hn;
    [|reflexivity].
  rewrite PIPELINE_STATUSES_nonempty; [reflexivity|].
  unfold at_index in Hn. destruct (Z.of_nat i + d <? 0); [done|].
  eapply list_elem_of_lookup_2; eauto.
Qed.

Lemma moveStatus_unknown (w : Store) (id : string) (d : Z) :
  (∀ s, getLocal (state w) id !! "status" = Some (VStr s) →
        s ∉ PIPELINE_STATUSES) →
  moveStatus id d w = w.
Proof.
  intros Hs. unfold moveStatus. by rewrite (indexOf_missing _ _ Hs).
Qed.

Lemma status_after_patch (w : Store) (id next : string) :
  getLocal (state (patchLocal id {[ "status" := VStr next ]} w)) id
    !! "status" = Some (VStr next).
Proof.
  rewrite getLocal_patchLocal. apply lookup_union_Some_l.
  apply lookup_singleton_eq.
Qed.

(** C10. [moveStatus] takes any integer step. With the current status at
    position [i] of the pipeline order and [i + d] a position of that order,
    the status becomes the element at [i + d]; with [i + d] outside the
    order, or a current status that is not in the order, nothing changes. *)
Theorem moveStatus_jumps_by_any_step (w : Store) (id : string) (d : Z) :
  (∀ (i : nat) (s : string),
     PIPELINE_STATUSES !! i = Some s →
     getLocal (state w) id !! "status" = Some (VStr s) →
     (0 ≤ Z.of_nat i + d < 6 →
      ∃ next, PIPELINE_STATUSES !! Z.to_nat (Z.of_nat i + d) = Some next
              ∧ moveStatus id d w = patchLocal id {[ "status" := VStr next ]} w
              ∧ getLocal (state (moveStatus id d w)) id !! "status"
                = Some (VStr next)) ∧
     (Z.of_nat i + d < 0 ∨ 6 ≤ Z.of_nat i + d → moveStatus id d w = w)) ∧
  ((∀ s, getLocal (state w) id !! "status" = Some (VStr s) →
         s ∉ PIPELINE_STATUSES) →
   moveStatus id d w = w).
Proof.
  split; [|apply moveStatus_unknown].
  intros i s Hi Hs. rewrite (moveStatus_found w id d i s Hi Hs). split.
  - intros Hrange.
    destruct (at_index_Some PIPELINE_STATUSES (Z.of_nat i + d)) as (x & Hx & ->);
      [simpl; lia|].
    exists x. split; [done|]. split; [done|]. apply status_after_patch.
  - intros Hrange. rewrite at_index_None; [done|]. simpl. lia.
Qed.

Lemma moveStatus_jumps_by_any_step_witness :
  let w := createStore Absent in
  getLocal (state (moveStatus "aide-1" 2 w)) "aide-1" !! "status"
    = Some (VStr "Go")
  ∧ moveStatus "aide-1" 6 w = w
  ∧ moveStatus "aide-1" 2
      (createStore (Blob {[ "aide-1" := {[ "status" := VStr "Perdu" ]} ]}))
    = createStore (Blob {[ "aide-1" := {[ "status" := VStr "Perdu" ]} ]}).
Proof.
  intros w. split; [|split].
  - destruct (moveStatus_jumps_by_any_step w "aide-1" 2) as [Hin _].
    destruct (Hin 0%nat "À qualifier") as [Hmove _];
      [vm_compute; reflexivity | vm_compute; reflexivity |].
    destruct Hmove as (next & Hnext & _ & Hstatus); [lia|].
    vm_compute in Hnext. injection Hnext as <-. exact Hstatus.
  - destruct (moveStatus_jumps_by_any_step w "aide-1" 6) as [Hin _].
    destruct (Hin 0%nat "À qualifier") as [_ Hstay];
      [vm_compute; reflexivity | vm_compute; reflexivity |].
    apply Hstay. lia.
  - apply moveStatus_jumps_by_any_step.
    intros s Hs. vm_compute in Hs. injection Hs as <-.
    apply (bool_decide_unpack _). vm_compute. reflexivity.
Defined.

(** C6. A single step on the kanban. Moving back from the first status of
    the pipeline order, moving forward from the last one, and moving from a
    status that the order does not hold all leave the store as it is;
    otherwise the status becomes the neighbour in the order À qualifier,
    En analyse, Go, No-Go, Déposé, Abandonné. *)
Theorem moveStatus_single_step (w : Store) (id : string) :
  let status := getLocal (state w) id !! "status" in
  PIPELINE_STATUSES
  = ["À qualifier"; "En analyse"; "Go"; "No-Go"; "Déposé"; "Abandonné"] ∧
  (∀ s, head PIPELINE_STATUSES = Some s → status = Some (VStr s) →
        moveStatus id (-1) w = w) ∧
  (∀ s, last PIPELINE_STATUSES = Some s → status = Some (VStr s) →
        moveStatus id 1 w = w) ∧
  ((∀ s, status = Some (VStr s) → s ∉ PIPELINE_STATUSES) →
   ∀ d, moveStatus id d w = w) ∧
  (∀ (i : nat) (s next : string),
     PIPELINE_STATUSES !! i = Some s → status = Some (VStr s) →
     PIPELINE_STATUSES !! S i = Some next →
     moveStatus id 1 w = patchLocal id {[ "status" := VStr next ]} w
     ∧ getLocal (state (moveStatus id 1 w)) id !! "status"
       = Some (VStr next)) ∧
  (∀ (i : nat) (s previous : string),
     PIPELINE_STATUSES !! S i = Some s → status = Some (VStr s) →
     PIPELINE_STATUSES !! i = Some previous →
     moveStatus id (-1) w = patchLocal id {[ "status" := VStr previous ]} w
     ∧ getLocal (state (moveStatus id (-1) w)) id !! "status"
       = Some (VStr previous)).
Proof.
  intros status. subst status.
  split; [reflexivity|].
  split; [|split; [|split; [|split]]].
  - intros s Hhead Hs.
    rewrite (moveStatus_found w id (-1) 0 s); [reflexivity| |done].
    by rewrite <- head_lookup.
  - intros s Hlast Hs.
    rewrite (moveStatus_found w id 1 5 s); [reflexivity| |done].
    by rewrite last_lookup in Hlast.
  - intros Hs d. by apply moveStatus_unknown.
  - intros i s next Hi Hs Hnext.
    rewrite (moveStatus_found w id 1 i s Hi Hs).
    assert (at_index PIPELINE_STATUSES (Z.of_nat i + 1) = Some next) as ->.
    { unfold at_index. destruct (Z.ltb_spec (Z.of_nat i + 1) 0); [lia|].
      by replace (Z.to_nat (Z.of_nat i + 1)) with (S i) by lia. }
    split; [reflexivity|]. apply status_after_patch.
  - intros i s previous Hi Hs Hprev.
    rewrite (moveStatus_found w id (-1) (S i) s Hi Hs).
    assert (at_index PIPELINE_STATUSES (Z.of_nat (S i) + -1) = Some previous)
      as ->.
    { unfold at_index. destruct (Z.ltb_spec (Z.of_nat (S i) + -1) 0); [lia|].
      by replace (Z.to_nat (Z.of_nat (S i) + -1)) with i by lia. }
    split; [reflexivity|]. apply status_after_patch.
Qed.

Lemma moveStatus_single_step_witness :
  let w := createStore Absent in
  let last := createStore
                (Blob {[ "aide-1" := {[ "status" := VStr "Abandonné" ]} ]}) in
  let lost := createStore
                (Blob {[ "aide-1" := {[ "status" := VStr "Perdu" ]} ]}) in
  moveStatus "aide-1" (-1) w = w
  ∧ moveStatus "aide-1" 1 last = last
  ∧ moveStatus "aide-1" 1 lost = lost
  ∧ getLocal (state (moveStatus "aide-1" 1 w)) "aide-1" !! "status"
    = Some (VStr "En analyse")
  ∧ getLocal (state (moveStatus "aide-1" (-1) last)) "aide-1" !! "status"
    = Some (VStr "Déposé").
Proof.
  intros w last lost. split; [|split; [|split; [|split]]].
  - destruct (moveStatus_single_step w "aide-1") as (_ & Hfirst & _).
    apply (Hfirst "À qualifier"); vm_compute; reflexivity.
  - destruct (moveStatus_single_step last "aide-1") as (_ & _ & Hlast & _).
    apply (Hlast "Abandonné"); vm_compute; reflexivity.
  - destruct (moveStatus_single_step lost "aide-1") as (_ & _ & _ & Hlost & _).
    apply Hlost. intros s Hs. vm_compute in Hs. injection Hs as <-.
    apply (bool_decide_unpack _). vm_compute. reflexivity.
  - destruct (moveStatus_single_step w "aide-1") as (_ & _ & _ & _ & Hnext & _).
    apply (Hnext 0%nat "À qualifier" "En analyse"); vm_compute; reflexivity.
  - destruct (moveStatus_single_step last "aide-1")
      as (_ & _ & _ & _ & _ & Hprev).
    apply (Hprev 4%nat "Abandonné" "Déposé"); vm_compute; reflexivity.
Defined.

(** ** The Normalizer *)

Lemma bind_Ok {A B} (f : A → result B) (a : A) : Ok a ≫= f = f a.
Proof. reflexivity. Qed.

Lemma bind_TypeError {A B} (f : A → result B) : TypeError ≫= f = TypeError.
Proof. reflexivity. Qed.

Lemma pick_without_usable (record : value) (keys : list string)
    (fallback : value) :
  record ≠ VNull →
  existsb (λ key, match prop record key with
                  | Ok x => usable x
                  | TypeError => false
                  end) keys = false →
  pick record keys fallback = Ok fallback.
Proof.
  intros Hrec. induction keys as [|key keys IH]; simpl; [reflexivity|].
  intros Hnone. apply orb_false_iff in Hnone as [Hkey Hrest].
  destruct (prop record key) as [x|] eqn:Hp; simpl.
  - destruct x as [v|]; [rewrite Hkey|]; by apply IH.
  - destruct record; simpl in Hp; congruence.
Qed.


Lemma pick_null (keys : list string) (fallback : value) :
  keys ≠ [] → pick VNull keys fallback = TypeError.
Proof. by destruct keys. Qed.

Section normalizer.
Context `{Platform}.


Lemma normalizeOpportunity_raw (record : value) (index : nat) (o : Op.t) :
  normalizeOpportunity record index = Ok o → Op.raw o = record.
Proof.
  unfold normalizeOpportunity. intros Hn.
  repeat match type of Hn with
         | context [pick record ?keys ?fb] =>
             destruct (pick record keys fb);
             [rewrite bind_Ok in Hn | discriminate]
         end.
  by injection Hn as <-.
Qed.

Lemma normalizeOpportunity_synthesized (record : value) (index : nat)
    (o : Op.t) :
  normalizeOpportunity record index = Ok o →
  supplies_identifier record = false →
  Op.id o = "op-" +:+ pretty (index + 1)%nat.
Proof.
  intros Hn Hid.
  assert (record ≠ VNull) as Hrec by (intros ->; discriminate).
  unfold normalizeOpportunity in Hn.
  rewrite (pick_without_usable record ID_KEYS _ Hrec Hid) in Hn.
  rewrite bind_Ok in Hn.
  repeat match type of Hn with
         | context [pick record ?keys ?fb] =>
             destruct (pick record keys fb);
             [rewrite bind_Ok in Hn | discriminate]
         end.
  by injection Hn as <-.
Qed.

Lemma normalize_from_lookup (records : list value) :
  ∀ (index : nat) (l : list Op.t) (i : nat) (o : Op.t),
    normalize_from index records = Ok l → l !! i = Some o →
    ∃ record, records !! i = Some record
              ∧ normalizeOpportunity record (index + i) = Ok o.
Proof.
  induction records as [|record records IH]; intros index l i o; simpl.
  - intros [= <-]. by rewrite lookup_nil.
  - destruct (normalizeOpportunity record index) as [o0|] eqn:Ho;
      simpl; [|discriminate].
    destruct (normalize_from (S index) records) as [os|] eqn:Hos;
      simpl; [|discriminate].
    intros [= <-]. destruct i as [|i]; simpl.
    + intros [= <-]. exists record. by rewrite Nat.add_0_r.
    + intros Hi. destruct (IH _ _ _ _ Hos Hi) as (r & Hr & Hn).
      exists r. split; [done|].
      by replace (index + S i)%nat with (S index + i)%nat by lia.
Qed.

Lemma normalize_from_raw (records : list value) :
  ∀ (index : nat) (l : list Op.t),
    normalize_from index records = Ok l → map Op.raw l = records.
Proof.
  induction records as [|record records IH]; intros index l; simpl.
  - by intros [= <-].
  - destruct (normalizeOpportunity record index) as [o0|] eqn:Ho;
      simpl; [|discriminate].
    destruct (normalize_from (S index) records) as [os|] eqn:Hos;
      simpl; [|discriminate].
    intros [= <-]. simpl.
    by rewrite (normalizeOpportunity_raw _ _ _ Ho), (IH _ _ Hos).
Qed.

Lemma hydrateFromPayload_Returned (p : payload) (s s' : State) :
  hydrateFromPayload p s = Returned s' →
  normalize_from 0 (records_of p) = Ok (opportunities s').
Proof.
  destruct p as [records|o|]; simpl; unfold hydrate;
    [| |by intros [= <-]];
    match goal with
    | |- context [normalize_from 0 ?l] => destruct (normalize_from 0 l)
    end; intros [= <-]; reflexivity.
Qed.
End normalizer.

(** C2, as the code has it. The Normalizer takes the identifier a record
    supplies as it is, so two records of one load may carry the same one. A
    record that supplies no usable identifier field gets [op-<n>] with [n]
    its position counted from one, and within one load the identifiers
    synthesized this way are pairwise distinct. *)
Theorem synthesized_ids_are_distinct `{Platform} (p : payload)
    (s s' : State) (i j : nat) (oi oj : Op.t) :
  hydrateFromPayload p s = Returned s' →
  opportunities s' !! i = Some oi →
  opportunities s' !! j = Some oj →
  supplies_identifier (Op.raw oi) = false →
  records_of p !! i = Some (Op.raw oi)
  ∧ Op.id oi = "op-" +:+ pretty (i + 1)%nat
  ∧ (i ≠ j → supplies_identifier (Op.raw oj) = false → Op.id oi ≠ Op.id oj).
Proof.
  intros Hh Hi Hj Hidi.
  apply hydrateFromPayload_Returned in Hh.
  destruct (normalize_from_lookup _ _ _ _ _ Hh Hi) as (ri & Hri & Hni).
  destruct (normalize_from_lookup _ _ _ _ _ Hh Hj) as (rj & Hrj & Hnj).
  simpl in Hni, Hnj.
  pose proof (normalizeOpportunity_raw _ _ _ Hni) as Hrawi.
  pose proof (normalizeOpportunity_raw _ _ _ Hnj) as Hrawj.
  rewrite Hrawi in *. rewrite Hrawj in *.
  split; [done|].
  rewrite (normalizeOpportunity_synthesized _ _ _ Hni Hidi).
  split; [done|].
  intros Hne Hidj.
  rewrite (normalizeOpportunity_synthesized _ _ _ Hnj Hidj).
  intros Heq. apply (inj (String.app "op-")) in Heq.
  apply (inj pretty) in Heq. lia.
Qed.

Lemma synthesized_ids_are_distinct_witness :
  ∃ s' oi oj,
    @hydrateFromPayload Host.platform two_bare_records
      (state (createStore Absent)) = Returned s'
    ∧ opportunities s' = [oi; oj]
    ∧ Op.id oi = "op-1" ∧ Op.id oj = "op-2" ∧ Op.id oi ≠ Op.id oj.
Proof.
  destruct (@hydrateFromPayload Host.platform two_bare_records
              (state (createStore Absent))) as [s'|s'] eqn:Hh;
    [|vm_compute in Hh; discriminate].
  assert (opportunities s' !! 0%nat
          = Some (Op.Build_t "op-1" (VStr "Appel A") "" "" "" "" "" (VStr "")
                    (VObj {[ "label" := VStr "Appel A" ]}))) as H0.
  { vm_compute in Hh. injection Hh as <-. reflexivity. }
  assert (opportunities s' !! 1%nat
          = Some (Op.Build_t "op-2" (VStr "Appel B") "" "" "" "" "" (VStr "")
                    (VObj {[ "label" := VStr "Appel B" ]}))) as H1.
  { vm_compute in Hh. injection Hh as <-. reflexivity. }
  destruct (@synthesized_ids_are_distinct Host.platform _ _ _ 0%nat 1%nat _ _
              Hh H0 H1) as (_ & Hid & Hne); [vm_compute; reflexivity|].
  eexists s', _, _. split; [reflexivity|].
  split; [vm_compute in Hh; injection Hh as <-; reflexivity|].
  split; [reflexivity|]. split; [reflexivity|].
  apply Hne; [lia | vm_compute; reflexivity].
Defined.

(** C2 as stated fails: identifiers that records supply are not made
    distinct, and a supplied identifier can equal a synthesized one. *)
Lemma supplied_ids_can_repeat :
  let state0 := state (createStore Absent) in
  let twice := PArray [VObj {[ "id" := VStr "aide-7" ]};
                       VObj {[ "id" := VStr "aide-7" ]}] in
  let clash := PArray [VObj {[ "id" := VStr "op-2" ]};
                       VObj {[ "label" := VStr "Appel B" ]}] in
  (∃ s', @hydrateFromPayload Host.platform twice state0 = Returned s'
         ∧ map Op.id (opportunities s') = ["aide-7"; "aide-7"]
         ∧ ¬ NoDup (map Op.id (opportunities s')))
  ∧ (∃ s', @hydrateFromPayload Host.platform clash state0 = Returned s'
           ∧ map Op.id (opportunities s') = ["op-2"; "op-2"]
           ∧ ¬ NoDup (map Op.id (opportunities s'))).
Proof.
  intros state0 twice clash. split.
  - eexists. split; [vm_compute; reflexivity|].
    split; [reflexivity|]. simpl. intros Hnd.
    apply NoDup_cons in Hnd as [Hnotin _]. apply Hnotin. by left.
  - eexists. split; [vm_compute; reflexivity|].
    split; [reflexivity|]. simpl. intros Hnd.
    apply NoDup_cons in Hnd as [Hnotin _]. apply Hnotin. by left.
Qed.

(** ** The dataset loader *)

Section loader.
Context `{Platform}.

Lemma hydrateFromPayload_accepts (p : payload) (s : State)
    (l : list Op.t) :
  normalize_from 0 (records_of p) = Ok l →
  ∃ s', hydrateFromPayload p s = Returned s' ∧ opportunities s' = l
        ∧ local s' = local s.
Proof.
  intros Hn. destruct p as [records|o|]; simpl in *; unfold hydrate.
  - rewrite Hn. eauto.
  - rewrite Hn. eauto.
  - injection Hn as <-. simpl. eauto.
Qed.

Lemma load_from_all_failed (fetch : string → fetched)
    (candidates : list string) (s : State) :
  (∀ path, path ∈ candidates → failed (fetch path) = true) →
  load_from fetch candidates s = (set_loadError LOAD_ERROR s, candidates).
Proof.
  induction candidates as [|path rest IH]; intros Hfail; [reflexivity|].
  assert (failed (fetch path) = true) as Hpath
    by (apply Hfail, elem_of_cons; by left).
  assert (load_from fetch rest s = (set_loadError LOAD_ERROR s, rest)) as Hrest
    by (apply IH; intros q Hq; apply Hfail, elem_of_cons; by right).
  simpl. rewrite Hrest.
  destruct (fetch path) as [|[|] [p|]]; simpl in Hpath;
    try discriminate; reflexivity.
Qed.

(** Once a candidate delivers a payload that the Normalizer accepts, the
    loop goes no further, whatever came before. *)
Lemma load_from_stops (fetch : string → fetched) (before after : list string)
    (path : string) (p : payload) (l : list Op.t) :
  fetch path = Response true (Some p) →
  normalize_from 0 (records_of p) = Ok l →
  ∀ s, (load_from fetch (before ++ path :: after) s).2
       `prefix_of` before ++ [path].
Proof.
  intros Hpath Hn. induction before as [|q before IH]; intros s; simpl.
  - rewrite Hpath.
    destruct (hydrateFromPayload_accepts p s l Hn) as (s' & -> & _).
    done.
  - destruct (fetch q) as [|[|] [pq|]];
      try (destruct (load_from fetch (before ++ path :: after) s)
             as [s1 log] eqn:Hl; simpl;
           apply prefix_cons; specialize (IH s); by rewrite Hl in IH).
    destruct (hydrateFromPayload pq s) as [s1|s1].
    + simpl. apply prefix_cons. apply prefix_nil.
    + destruct (load_from fetch (before ++ path :: after) s1)
        as [s2 log] eqn:Hl; simpl.
      apply prefix_cons. specialize (IH s1). by rewrite Hl in IH.
Qed.

(** With nothing but failures before it, the first candidate that delivers
    an accepted payload is the one and only source of the new dataset. *)
Lemma load_from_first_success (fetch : string → fetched)
    (before after : list string) (path : string) (p : payload)
    (s s' : State) :
  (∀ q, q ∈ before → failed (fetch q) = true) →
  fetch path = Response true (Some p) →
  hydrateFromPayload p s = Returned s' →
  load_from fetch (before ++ path :: after) s
  = (set_loaded path s', before ++ [path]).
Proof.
  intros Hbefore Hpath Hh. induction before as [|q before IH]; simpl.
  - by rewrite Hpath, Hh.
  - assert (failed (fetch q) = true) as Hq
      by (apply Hbefore, elem_of_cons; by left).
    rewrite IH by (intros r Hr; apply Hbefore, elem_of_cons; by right).
    destruct (fetch q) as [|[|] [pq|]]; simpl in Hq;
      try discriminate; reflexivity.
Qed.
End loader.

Lemma DATA_CANDIDATES_NoDup : NoDup DATA_CANDIDATES.
Proof. apply (bool_decide_unpack _). vm_compute. reflexivity. Qed.

(** C4. When every candidate fails (the request fails, the response is not
    a success, or the body does not parse), [loadDataset] has tried all of
    them, sets the load error and leaves [meta], the opportunities, the
    overlay and the durable storage as they were. When a candidate delivers
    an accepted payload, no candidate after it is fetched; and when all
    before it failed, the new dataset is that payload's alone. *)
Theorem loadDataset_fails_softly_and_stops_at_success `{Platform}
    (fetch : string → fetched) (w : Store) :
  let s := state w in
  let s' := (loadDataset fetch s).1 in
  let log := (loadDataset fetch s).2 in
  ((∀ path, path ∈ DATA_CANDIDATES → failed (fetch path) = true) →
   log = DATA_CANDIDATES
   ∧ loadError s' = LOAD_ERROR ∧ LOAD_ERROR ≠ ""
   ∧ meta s' = meta s ∧ opportunities s' = opportunities s
   ∧ local s' = local s ∧ rawDataPath s' = rawDataPath s
   ∧ localStorage (run (LoadDataset fetch) w) = localStorage w) ∧
  (∀ before path after p l,
     DATA_CANDIDATES = before ++ path :: after →
     fetch path = Response true (Some p) →
     normalize_from 0 (records_of p) = Ok l →
     log `prefix_of` before ++ [path]
     ∧ (∀ q, q ∈ after → q ∉ log)
     ∧ ((∀ q, q ∈ before → failed (fetch q) = true) →
        log = before ++ [path]
        ∧ opportunities s' = l
        ∧ rawDataPath s' = Some path ∧ loadError s' = ""
        ∧ local s' = local s)).
Proof.
  intros s s' log. subst s' log. unfold loadDataset. split.
  - intros Hfail. rewrite (load_from_all_failed _ _ _ Hfail). simpl.
    repeat (split; [done|]). done.
  - intros before path after p l Hsplit Hpath Hn. rewrite Hsplit.
    pose proof (load_from_stops fetch before after path p l Hpath Hn s)
      as Hprefix.
    split; [done|]. split.
    + intros q Hq Hlog.
      pose proof DATA_CANDIDATES_NoDup as Hnd. rewrite Hsplit in Hnd.
      assert (q ∈ before ++ [path]) as Hin
        by (destruct Hprefix as [k ->]; apply elem_of_app; by left).
      replace (before ++ path :: after) with ((before ++ [path]) ++ after)
        in Hnd by (by rewrite <- app_assoc).
      apply NoDup_app in Hnd as (_ & Hdisj & _). by apply (Hdisj q).
    + intros Hbefore.
      destruct (hydrateFromPayload_accepts p s l Hn) as (s1 & Hh & Hops & Hloc).
      rewrite (load_from_first_success fetch before after path p s s1
                 Hbefore Hpath Hh). simpl.
      by rewrite Hops, Hloc.
Qed.

Lemma loadDataset_fails_softly_and_stops_at_success_witness :
  let w := createStore Absent in
  (@loadDataset Host.platform fetch_nothing (state w)).2 = DATA_CANDIDATES
  ∧ loadError (@loadDataset Host.platform fetch_nothing (state w)).1
    = LOAD_ERROR
  ∧ (@loadDataset Host.platform fetch_second (state w)).2
    = ["data/opportunities.seed.json"; "./data/opportunities.json"]
  ∧ rawDataPath (@loadDataset Host.platform fetch_second (state w)).1
    = Some "./data/opportunities.json".
Proof.
  intros w.
  destruct (@loadDataset_fails_softly_and_stops_at_success Host.platform
              fetch_nothing w) as [Hfail _].
  destruct Hfail as (Hlog & Herr & _).
  { intros path Hin. unfold DATA_CANDIDATES in Hin.
    repeat (apply elem_of_cons in Hin as [-> | Hin];
            [vm_compute; reflexivity|]).
    by apply elem_of_nil in Hin. }
  destruct (@loadDataset_fails_softly_and_stops_at_success Host.platform
              fetch_second w) as [_ Hstop].
  destruct (Hstop ["data/opportunities.seed.json"] "./data/opportunities.json"
              ["./data/data.json"] two_bare_records
              [Op.Build_t "op-1" (VStr "Appel A") "" "" "" "" "" (VStr "")
                 (VObj {[ "label" := VStr "Appel A" ]});
               Op.Build_t "op-2" (VStr "Appel B") "" "" "" "" "" (VStr "")
                 (VObj {[ "label" := VStr "Appel B" ]})])
    as (_ & _ & Hfirst);
    [reflexivity | vm_compute; reflexivity | vm_compute; reflexivity |].
  destruct Hfirst as (Hlog2 & _ & Hpath & _).
  { intros q Hin. apply list_elem_of_singleton in Hin as ->.
    vm_compute. reflexivity. }
  split; [exact Hlog|]. split; [exact Herr|]. split; [exact Hlog2|].
  exact Hpath.
Defined.

(** Beside the three failures of C4 the loop has a fourth: a payload that
    parses and makes the Normalizer throw. It is skipped like the others,
    yet its [_meta] has already replaced the one in the state. *)
Example a_rejected_payload_leaves_its_meta :
  let fetch path :=
    if String.eqb path "data/opportunities.seed.json"
    then Response true (Some broken_payload) else NetworkError in
  let s' := (@loadDataset Host.platform fetch (state (createStore Absent))).1 in
  loadError s' = LOAD_ERROR
  ∧ opportunities s' = []
  ∧ meta s' = VObj {[ "generated_at" := VStr "hier" ]}.
Proof. vm_compute. repeat split; reflexivity. Qed.

(** ** Snapshots *)

Section snapshot.
Context `{Platform}.

Lemma js_or_truthy (a : option value) (b : value) :
  truthy b = true → truthy (js_or a b) = true.
Proof.
  intros Hb. unfold js_or.
  destruct a as [v|]; [destruct (truthy v) eqn:Hv|]; done.
Qed.

Lemma hydrate_hydrated (m : value) (source : list value) (s : State) :
  truthy m = true → hydrated s → hydrated (final (hydrate m source s)).
Proof.
  intros Hm [Hops _]. unfold hydrate.
  destruct (normalize_from 0 source) as [l|] eqn:Hn; simpl.
  - split; [|done]. simpl. by rewrite (normalize_from_raw _ _ _ Hn).
  - by split.
Qed.

Lemma hydrateFromPayload_hydrated (p : payload) (s : State) :
  hydrated s → hydrated (final (hydrateFromPayload p s)).
Proof.
  intros Hs. destruct p as [records|o|]; unfold hydrateFromPayload;
    apply hydrate_hydrated; try done.
  by apply js_or_truthy.
Qed.

Lemma load_from_hydrated (fetch : string → fetched)
    (candidates : list string) (s : State) :
  hydrated s → hydrated (load_from fetch candidates s).1.
Proof.
  revert s. induction candidates as [|path rest IH]; intros s Hs; simpl.
  - done.
  - destruct (fetch path) as [|[|] [p|]];
      try (specialize (IH s Hs);
           by destruct (load_from fetch rest s)).
    pose proof (hydrateFromPayload_hydrated p s Hs) as Hp.
    destruct (hydrateFromPayload p s) as [s1|s1]; simpl in *; [done|].
    specialize (IH s1 Hp). by destruct (load_from fetch rest s1).
Qed.

Lemma importSnapshot_hydrated (p : payload) (w : Store) :
  hydrated (state w) → hydrated (state (final (importSnapshot p w))).
Proof.
  intros Hw. unfold importSnapshot.
  set (o := match p with PObject o => Some o | _ => None end).
  assert (hydrated
            (final (match o ≫= Payload.opportunities with
                    | Some (VArr _) => hydrateFromPayload p (state w)
                    | _ => Returned (state w)
                    end))) as Hh.
  { destruct (o ≫= Payload.opportunities) as [[| | | | |]|]; try done.
    by apply hydrateFromPayload_hydrated. }
  destruct (match o ≫= Payload.opportunities with
            | Some (VArr _) => hydrateFromPayload p (state w)
            | _ => Returned (state w)
            end) as [s|s]; simpl in *; [|done].
  by destruct (o ≫= Payload.local).
Qed.

Lemma run_hydrated (c : call) (w : Store) :
  hydrated (state w) → hydrated (state (run c w)).
Proof.
  intros Hw. destruct c as [fetch|id|id patch|id patch|id d| |p]; simpl;
    try done.
  - by apply load_from_hydrated.
  - unfold moveStatus.
    destruct (_ <? 0); [done|]. destruct (at_index _ _); [|done].
    by destruct (String.eqb _ _).
  - by apply importSnapshot_hydrated.
Qed.

Lemma reachable_hydrated (w : Store) : reachable w → hydrated (state w).
Proof.
  induction 1 as [storage|c w _ IH]; [by split|by apply run_hydrated].
Qed.
End snapshot.

(** C1. From every store that calls can reach, importing what
    [exportSnapshot] returns succeeds and gives back the same state: the raw
    records go through the Normalizer again at the same positions and yield
    the same opportunities, the overlay is the same mapping (entries for
    identifiers that no opportunity carries included), so the merged view is
    identical; the overlay is also written to the durable storage. *)
Theorem export_then_import_is_identity `{Platform} (w : Store) :
  reachable w →
  Payload.opportunities (exportSnapshot (state w))
  = Some (VArr (map Op.raw (opportunities (state w))))
  ∧ normalize_from 0 (map Op.raw (opportunities (state w)))
    = Ok (opportunities (state w))
  ∧ ∃ w', importSnapshot (PObject (exportSnapshot (state w))) w = Returned w'
          ∧ state w' = state w
          ∧ opportunities (state w') = opportunities (state w)
          ∧ local (state w') = local (state w)
          ∧ merged_view (state w') = merged_view (state w)
          ∧ localStorage w' = Blob (local (state w)).
Proof.
  intros Hw. destruct (reachable_hydrated w Hw) as [Hops Hmeta].
  split; [reflexivity|]. split; [exact Hops|].
  destruct w as [[m ops l path err] storage]; simpl in Hops, Hmeta.
  unfold importSnapshot, exportSnapshot.
  cbn [mbind option_bind Payload.opportunities Payload.local].
  unfold hydrateFromPayload, hydrate, source_of, js_or.
  cbn [Payload.opportunities Payload._meta state meta opportunities set_meta].
  rewrite Hmeta, Hops.
  eexists. split; [reflexivity|]. simpl. by repeat split.
Qed.

Lemma export_then_import_is_identity_witness :
  ∃ w', @importSnapshot Host.platform
          (PObject (exportSnapshot (state sample_store))) sample_store
        = Returned w'
        ∧ state w' = state sample_store
        ∧ local (state w') !! "delisted" = Some ({[ "owner" := VStr "X" ]}
                                                   ∪ default_annotation)
        ∧ map Op.id (opportunities (state w')) = ["op-1"; "op-2"].
Proof.
  destruct (@export_then_import_is_identity Host.platform sample_store)
    as (_ & _ & w' & Himport & Hstate & _).
  { unfold sample_store. repeat apply reachable_run. apply reachable_create. }
  exists w'. split; [exact Himport|]. split; [exact Hstate|].
  rewrite Hstate. split; vm_compute; reflexivity.
Defined.

(** ** The query engine *)

Section sorting.
Context {A : Type} (compare : A → A → Z).

Lemma insert_sorted_Permutation (x : A) (l : list A) :
  insert_sorted compare x l ≡ₚ x :: l.
Proof.
  induction l as [|y l IH]; simpl; [done|].
  destruct (compare x y <=? 0); [done|].
  rewrite IH. apply Permutation_swap.
Qed.

Lemma js_sort_Permutation (l : list A) : js_sort compare l ≡ₚ l.
Proof.
  induction l as [|x l IH]; simpl; [done|].
  by rewrite insert_sorted_Permutation, IH.
Qed.



Hypothesis compare_total : ∀ a b, 0 < compare a b → compare b a ≤ 0.
Hypothesis compare_trans :
  ∀ a b c, compare a b ≤ 0 → compare b c ≤ 0 → compare a c ≤ 0.

Lemma insert_sorted_StronglySorted (x : A) (l : list A) :
  StronglySorted (λ a b, compare a b ≤ 0) l →
  StronglySorted (λ a b, compare a b ≤ 0) (insert_sorted compare x l).
Proof.
  induction 1 as [|y l Hl IH Hy]; simpl.
  - repeat constructor.
  - destruct (Z.leb_spec (compare x y) 0) as [Hle|Hgt].
    + constructor; [by constructor|].
      constructor; [done|].
      eapply Forall_impl; [exact Hy|]. intros z Hz. by eapply compare_trans.
    + constructor; [done|].
      rewrite insert_sorted_Permutation. constructor; [|done].
      by apply compare_total.
Qed.

Lemma js_sort_StronglySorted (l : list A) :
  StronglySorted (λ a b, compare a b ≤ 0) (js_sort compare l).
Proof.
  induction l as [|x l IH]; simpl; [constructor|].
  by apply insert_sorted_StronglySorted.
Qed.
End sorting.

Lemma StronglySorted_lookup {A : Type} (R : A → A → Prop) (l : list A) :
  StronglySorted R l →
  ∀ (i j : nat) (a b : A),
    (i < j)%nat → l !! i = Some a → l !! j = Some b → R a b.
Proof.
  induction 1 as [|x l Hl IH Hx]; intros i j a b Hij Hi Hj.
  - by rewrite lookup_nil in Hi.
  - destruct j as [|j]; [lia|]. simpl in Hj.
    destruct i as [|i]; simpl in Hi.
    + injection Hi as <-.
      eapply Forall_forall; [exact Hx|]. eapply list_elem_of_lookup_2; eauto.
    + apply (IH i j); [lia|done|done].
Qed.

Section collation.
Context `{Collation}.


Lemma by_deadline_total (f : Filters.t) (a b : Op.t) :
  0 < by_deadline f a b → by_deadline f b a ≤ 0.
Proof.
  unfold by_deadline. destruct (String.eqb (Filters.sort f) "asc");
    intros Hab.
  - pose proof (localeCompare_flip (due a) (due b)). lia.
  - pose proof (localeCompare_flip (due b) (due a)). lia.
Qed.

Lemma by_deadline_trans (f : Filters.t) (a b c : Op.t) :
  by_deadline f a b ≤ 0 → by_deadline f b c ≤ 0 → by_deadline f a c ≤ 0.
Proof.
  unfold by_deadline. destruct (String.eqb (Filters.sort f) "asc");
    intros Hab Hbc; eapply localeCompare_trans; eauto.
Qed.

End collation.

Lemma due_undated (o : Op.t) : Op.deadline o = "" → due o = "9999-12-31".
Proof. intros Hd. unfold due. by rewrite Hd. Qed.

Lemma due_dated (o : Op.t) : Op.deadline o ≠ "" → due o = Op.deadline o.
Proof. intros Hd. unfold due. apply String.eqb_neq in Hd. by rewrite Hd. Qed.


(** The reference host collates consistently. *)
Lemma ascii_compare_trans (a b c : ascii) :
  Ascii.compare a b ≠ Gt → Ascii.compare b c ≠ Gt → Ascii.compare a c ≠ Gt.
Proof.
  unfold Ascii.compare. rewrite !N.compare_ngt_iff.
  generalize (N_of_ascii a), (N_of_ascii b), (N_of_ascii c). lia.
Qed.

Lemma ascii_compare_Eq (a b : ascii) : Ascii.compare a b = Eq → a = b.
Proof. apply Ascii.compare_eq_iff. Qed.

Lemma string_compare_trans (a : string) :
  ∀ b c, String.compare a b ≠ Gt → String.compare b c ≠ Gt →
         String.compare a c ≠ Gt.
Proof.
  induction a as [|x a IH]; intros [|y b] [|z c]; simpl; try done.
  destruct (Ascii.compare x y) eqn:Hxy; [| |done].
  - apply ascii_compare_Eq in Hxy as ->.
    destruct (Ascii.compare y z); [apply IH|done|done].
  - intros _. destruct (Ascii.compare y z) eqn:Hyz; [| |done].
    + apply ascii_compare_Eq in Hyz as ->. by rewrite Hxy.
    + intros _.
      pose proof (ascii_compare_trans x y z) as Ht.
      rewrite Hxy, Hyz in Ht.
      destruct (Ascii.compare x z) eqn:Hxz; [|done|by exfalso; apply Ht].
      apply ascii_compare_Eq in Hxz as ->.
      unfold Ascii.compare in Hxy, Hyz.
      exfalso. revert Hxy Hyz. rewrite !N.compare_lt_iff.
      generalize (N_of_ascii y), (N_of_ascii z). lia.
Qed.

Lemma Host_collation : @Collation Host.platform.
Proof.
  split; simpl; unfold Host.collate.
  - intros a b. rewrite (String.compare_antisym a b).
    by destruct (String.compare b a).
  - intros a b c Hab Hbc.
    pose proof (string_compare_trans a b c) as Ht.
    destruct (String.compare a b), (String.compare b c),
      (String.compare a c); try lia; exfalso; by apply Ht.
Qed.




(** * Further properties of the code *)

(** ** Field resolution *)

Lemma prop_Ok_not_null (record : value) (key : string) (x : option value) :
  prop record key = Ok x → record ≠ VNull.
Proof. by intros Hp ->. Qed.

Lemma pick_skips_unusable (record : value) (before keys : list string)
    (fallback : value) :
  record ≠ VNull → supplies record before = false →
  pick record (before ++ keys) fallback = pick record keys fallback.
Proof.
  intros Hrec. induction before as [|k before IH]; [done|].
  unfold supplies. simpl. intros Hnone.
  apply orb_false_iff in Hnone as [Hk Hrest].
  destruct (prop record k) as [x|] eqn:Hp.
  - rewrite bind_Ok. destruct x as [v|]; [rewrite Hk|]; by apply IH.
  - destruct record; simpl in Hp; congruence.
Qed.

Lemma pick_any_fallback (record : value) (keys : list string)
    (fb1 fb2 : value) :
  supplies record keys = true →
  pick record keys fb1 = pick record keys fb2.
Proof.
  induction keys as [|k keys IH]; [done|].
  unfold supplies. simpl. intros Hsome.
  destruct (prop record k) as [x|] eqn:Hp; [|done].
  rewrite !bind_Ok. destruct x as [v|].
  - destruct (usable (Some v)); [done|]. by apply IH.
  - by apply IH.
Qed.

(** X1. [pick] takes the first key, in the order given, whose value is
    neither missing, [null] nor the empty string; when no key qualifies it
    gives the fallback; on a [null] record it throws as soon as there is a
    key to read. *)
Theorem pick_first_match_wins (record fallback : value) :
  (∀ before key after v,
     supplies record before = false →
     prop record key = Ok (Some v) → usable (Some v) = true →
     pick record (before ++ key :: after) fallback = Ok v) ∧
  (∀ keys, record ≠ VNull → supplies record keys = false →
           pick record keys fallback = Ok fallback) ∧
  (∀ keys, keys ≠ [] → pick VNull keys fallback = TypeError).
Proof.
  split; [|split].
  - intros before key after v Hbefore Hkey Hv.
    rewrite pick_skips_unusable by eauto using prop_Ok_not_null.
    simpl. by rewrite Hkey, bind_Ok, Hv.
  - intros keys Hrec Hnone. by apply pick_without_usable.
  - intros keys Hkeys. by apply pick_null.
Qed.

Lemma pick_first_match_wins_witness :
  let record := VObj {[ "id" := VStr ""; "slug" := VNull;
                        "uid" := VNum 7; "name" := VStr "n" ]} in
  pick record ID_KEYS (VStr "op-1") = Ok (VNum 7)
  ∧ pick record URL_KEYS (VStr "") = Ok (VStr "")
  ∧ pick VNull URL_KEYS (VStr "") = TypeError.
Proof.
  intros record.
  destruct (pick_first_match_wins record (VStr "op-1")) as (Hfirst & _).
  destruct (pick_first_match_wins record (VStr "")) as (_ & Hnone & Hnull).
  split; [|split].
  - apply (Hfirst ["id"; "slug"] "uid" ["name"; "title"]);
      vm_compute; reflexivity.
  - apply Hnone; [discriminate | vm_compute; reflexivity].
  - apply Hnull. discriminate.
Defined.

(** ** The Normalizer, field by field *)

Section normalizer_fields.
Context `{Platform}.

(** What a successful normalization is made of. *)
Lemma normalizeOpportunity_inv (record : value) (index : nat) (o : Op.t) :
  normalizeOpportunity record index = Ok o →
  ∃ id title type category axis territory deadline sourceUrl,
    pick record ID_KEYS (VStr ("op-" +:+ pretty (index + 1)%nat)) = Ok id
    ∧ pick record TITLE_KEYS (VStr "Sans titre") = Ok title
    ∧ pick record TYPE_KEYS (VStr "") = Ok type
    ∧ pick record CATEGORY_KEYS (VStr "") = Ok category
    ∧ pick record AXIS_KEYS (VStr "") = Ok axis
    ∧ pick record TERRITORY_KEYS (VStr "") = Ok territory
    ∧ pick record DEADLINE_KEYS (VStr "") = Ok deadline
    ∧ pick record URL_KEYS (VStr "") = Ok sourceUrl
    ∧ o = {| Op.id := to_string id;
             Op.title := title;
             Op.type := js_join ", " (asArray type);
             Op.category := js_join ", " (asArray category);
             Op.axis := js_join ", " (asArray axis);
             Op.territory := js_join ", " (asArray territory);
             Op.deadline := toISODate deadline;
             Op.sourceUrl := sourceUrl;
             Op.raw := record |}.
Proof.
  unfold normalizeOpportunity, ID_KEYS, TITLE_KEYS, TYPE_KEYS, CATEGORY_KEYS,
    AXIS_KEYS, TERRITORY_KEYS, DEADLINE_KEYS, URL_KEYS.
  intros Hn.
  repeat match type of Hn with
         | context [pick record ?keys ?fb] =>
             let v := fresh "v" in
             destruct (pick record keys fb) as [v|];
             [rewrite bind_Ok in Hn | discriminate]
         end.
  injection Hn as <-. by eexists _, _, _, _, _, _, _, _.
Qed.

End normalizer_fields.

(** X2. The position of a record enters its normalization through the
    synthesized identifier only: normalized at two positions, a record gets
    the same title, type, category, axis, territory, deadline, source URL
    and raw record, and the same opportunity altogether when it supplies an
    identifier. *)
Theorem normalizeOpportunity_position_only_in_synthesized_id `{Platform}
    (record : value) (i j : nat) (oi oj : Op.t) :
  normalizeOpportunity record i = Ok oi →
  normalizeOpportunity record j = Ok oj →
  (Op.title oi = Op.title oj ∧ Op.type oi = Op.type oj
   ∧ Op.category oi = Op.category oj ∧ Op.axis oi = Op.axis oj
   ∧ Op.territory oi = Op.territory oj ∧ Op.deadline oi = Op.deadline oj
   ∧ Op.sourceUrl oi = Op.sourceUrl oj ∧ Op.raw oi = Op.raw oj)
  ∧ (supplies_identifier record = true → oi = oj).
Proof.
  intros Hi Hj.
  apply normalizeOpportunity_inv in Hi
    as (id1 & t1 & ty1 & c1 & a1 & te1 & d1 & u1
        & Hid1 & Ht1 & Hty1 & Hc1 & Ha1 & Hte1 & Hd1 & Hu1 & ->).
  apply normalizeOpportunity_inv in Hj
    as (id2 & t2 & ty2 & c2 & a2 & te2 & d2 & u2
        & Hid2 & Ht2 & Hty2 & Hc2 & Ha2 & Hte2 & Hd2 & Hu2 & ->).
  assert (t1 = t2) as -> by congruence.
  assert (ty1 = ty2) as -> by congruence.
  assert (c1 = c2) as -> by congruence.
  assert (a1 = a2) as -> by congruence.
  assert (te1 = te2) as -> by congruence.
  assert (d1 = d2) as -> by congruence.
  assert (u1 = u2) as -> by congruence.
  split; [done|]. intros Hid. simpl.
  rewrite (pick_any_fallback record ID_KEYS _
             (VStr ("op-" +:+ pretty (j + 1)%nat)) Hid) in Hid1.
  by assert (id1 = id2) as -> by congruence.
Qed.

Lemma normalizeOpportunity_position_only_in_synthesized_id_witness :
  let record := VObj {[ "slug" := VStr "aide-eau";
                        "deadline" := VStr "2024-06-01" ]} in
  @normalizeOpportunity Host.platform record 0
  = @normalizeOpportunity Host.platform record 41.
Proof.
  intros record.
  destruct (@normalizeOpportunity Host.platform record 0) as [oi|] eqn:Hi;
    [|vm_compute in Hi; discriminate].
  destruct (@normalizeOpportunity Host.platform record 41) as [oj|] eqn:Hj;
    [|vm_compute in Hj; discriminate].
  f_equal.
  apply (@normalizeOpportunity_position_only_in_synthesized_id Host.platform
           record 0 41 oi oj Hi Hj).
  vm_compute. reflexivity.
Defined.



Lemma pick_head (m : gmap string value) (key : string) (rest : list string)
    (v fallback : value) :
  m !! key = Some v → usable (Some v) = true →
  pick (VObj m) (key :: rest) fallback = Ok v.
Proof.
  intros Hk Hv.
  change (pick (VObj m) (key :: rest) fallback)
    with (x ← Ok (m !! key);
          match x with
          | Some v => if usable x then Ok v else pick (VObj m) rest fallback
          | None => pick (VObj m) rest fallback
          end).
  by rewrite bind_Ok, Hk, Hv.
Qed.

Lemma flatten_string (s : string) : js_join ", " (asArray (VStr s)) = s.
Proof. by destruct s. Qed.

Lemma flatten_strings (l : list string) :
  js_join ", " (asArray (VArr (VStr <$> l))) = join_strings ", " l.
Proof.
  unfold js_join, asArray. f_equal.
  induction l as [|s l IH]; [done|]. by rewrite fmap_cons, map_cons, IH.
Qed.

(** X4. A type, category, axis or territory that arrives as a list of
    strings is joined with a comma and a space, and one that arrives as a
    single string passes through unchanged. *)
Theorem normalizeOpportunity_flattens_lists `{Platform}
    (m : gmap string value) (index : nat) (o : Op.t) :
  normalizeOpportunity (VObj m) index = Ok o →
  (∀ s, s ≠ "" → m !! "type" = Some (VStr s) → Op.type o = s) ∧
  (∀ l, m !! "type" = Some (VArr (VStr <$> l)) →
        Op.type o = join_strings ", " l) ∧
  (∀ s, s ≠ "" → m !! "category" = Some (VStr s) → Op.category o = s) ∧
  (∀ l, m !! "category" = Some (VArr (VStr <$> l)) →
        Op.category o = join_strings ", " l) ∧
  (∀ s, s ≠ "" → m !! "axis" = Some (VStr s) → Op.axis o = s) ∧
  (∀ l, m !! "axis" = Some (VArr (VStr <$> l)) →
        Op.axis o = join_strings ", " l) ∧
  (∀ s, s ≠ "" → m !! "territory" = Some (VStr s) → Op.territory o = s) ∧
  (∀ l, m !! "territory" = Some (VArr (VStr <$> l)) →
        Op.territory o = join_strings ", " l).
Proof.
  intros Hn.
  apply normalizeOpportunity_inv in Hn
    as (id & t & ty & c & a & te & d & u
        & Hid & Ht & Hty & Hc & Ha & Hte & Hd & Hu & ->).
  cbn [Op.type Op.category Op.axis Op.territory].
  assert (∀ s, s ≠ "" → usable (Some (VStr s)) = true) as Hstr
    by (by intros [|]).
  unfold TYPE_KEYS, CATEGORY_KEYS, AXIS_KEYS, TERRITORY_KEYS in *.
  repeat split.
  - intros s Hs Hm. rewrite (pick_head _ _ _ _ _ Hm (Hstr s Hs)) in Hty.
    injection Hty as <-. apply flatten_string.
  - intros l Hm. rewrite (pick_head _ _ _ _ _ Hm eq_refl) in Hty.
    injection Hty as <-. apply flatten_strings.
  - intros s Hs Hm. rewrite (pick_head _ _ _ _ _ Hm (Hstr s Hs)) in Hc.
    injection Hc as <-. apply flatten_string.
  - intros l Hm. rewrite (pick_head _ _ _ _ _ Hm eq_refl) in Hc.
    injection Hc as <-. apply flatten_strings.
  - intros s Hs Hm. rewrite (pick_head _ _ _ _ _ Hm (Hstr s Hs)) in Ha.
    injection Ha as <-. apply flatten_string.
  - intros l Hm. rewrite (pick_head _ _ _ _ _ Hm eq_refl) in Ha.
    injection Ha as <-. apply flatten_strings.
  - intros s Hs Hm. rewrite (pick_head _ _ _ _ _ Hm (Hstr s Hs)) in Hte.
    injection Hte as <-. apply flatten_string.
  - intros l Hm. rewrite (pick_head _ _ _ _ _ Hm eq_refl) in Hte.
    injection Hte as <-. apply flatten_strings.
Qed.

Lemma normalizeOpportunity_flattens_lists_witness :
  ∃ o, @normalizeOpportunity Host.platform
         (VObj {[ "type" := VStr "AAP";
                  "category" := VArr [VStr "eau"; VStr "climat"] ]}) 0 = Ok o
       ∧ Op.type o = "AAP" ∧ Op.category o = "eau, climat".
Proof.
  destruct (@normalizeOpportunity Host.platform
              (VObj {[ "type" := VStr "AAP";
                       "category" := VArr [VStr "eau"; VStr "climat"] ]}) 0)
    as [o|] eqn:Ho; [|vm_compute in Ho; discriminate].
  destruct (@normalizeOpportunity_flattens_lists Host.platform _ _ _ Ho)
    as (Htype & _ & _ & Hcategory & _).
  exists o. split; [reflexivity|]. split.
  - apply Htype; [discriminate | vm_compute; reflexivity].
  - apply (Hcategory ["eau"; "climat"]). vm_compute. reflexivity.
Defined.

(** ** Dates *)

Lemma substring_length (n : nat) (s : string) :
  (String.length (substring 0 n s) ≤ n)%nat.
Proof.
  revert s. induction n as [|n IH]; intros [|c s]; simpl; try lia.
  specialize (IH s). lia.
Qed.

(** X5. A normalized date is a string of at most ten characters. It is
    empty, and [daysUntil] has no answer, whenever the value is falsy or the
    host cannot read a date from it; so no opportunity ever carries a
    deadline longer than ten characters. *)
Theorem toISODate_is_short_or_empty `{Platform} :
  (∀ v, (String.length (toISODate v) ≤ 10)%nat) ∧
  (∀ v, truthy v = false ∨ Date_parse v = None →
        toISODate v = "" ∧ daysUntil v = None) ∧
  (∀ record index o, normalizeOpportunity record index = Ok o →
                     (String.length (Op.deadline o) ≤ 10)%nat).
Proof.
  assert (∀ v, (String.length (toISODate v) ≤ 10)%nat) as Hshort.
  { intros v. unfold toISODate. destruct (parseDate v); simpl; [|lia].
    apply substring_length. }
  split; [exact Hshort|]. split.
  - intros v Hv. unfold toISODate, daysUntil, parseDate.
    destruct (truthy v); [|done].
    destruct Hv as [Hv | ->]; done.
  - intros record index o Hn.
    apply normalizeOpportunity_inv in Hn
      as (id & t & ty & c & a & te & d & u & _ & _ & _ & _ & _ & _ & _ & _ & ->).
    apply Hshort.
Qed.

Lemma toISODate_is_short_or_empty_witness :
  @toISODate Host.platform (VStr "prochainement") = ""
  ∧ @daysUntil Host.platform (VNum 0) = None
  ∧ ∃ o, @normalizeOpportunity Host.platform
           (VObj {[ "end_date" := VStr "2024-06-01" ]}) 0 = Ok o
         ∧ (String.length (Op.deadline o) ≤ 10)%nat.
Proof.
  destruct (@toISODate_is_short_or_empty Host.platform)
    as (_ & Hempty & Hdeadline).
  split; [|split].
  - apply Hempty. right. vm_compute. reflexivity.
  - apply Hempty. left. vm_compute. reflexivity.
  - destruct (@normalizeOpportunity Host.platform
                (VObj {[ "end_date" := VStr "2024-06-01" ]}) 0)
      as [o|] eqn:Ho; [|vm_compute in Ho; discriminate].
    exists o. split; [reflexivity|]. by apply (Hdeadline _ _ _ Ho).
Defined.

(** X6. [daysUntil] counts whole days, rounded up, from local midnight
    today to the date: its answer [n] is the one integer with
    [n - 1] days < date - today <= [n] days. A date that is already past
    gives zero or less. *)
Theorem daysUntil_rounds_up `{Platform} (v : value) (d : Z) :
  parseDate v = Some d →
  ∃ n, daysUntil v = Some n
       ∧ 86400000 * (n - 1) < d - today ≤ 86400000 * n
       ∧ (d ≤ today → n ≤ 0).
Proof.
  intros Hd. unfold daysUntil. rewrite Hd.
  eexists. split; [reflexivity|].
  pose proof (Z.div_mod (today - d) 86400000 ltac:(lia)) as Hdm.
  pose proof (Z.mod_pos_bound (today - d) 86400000 ltac:(lia)) as Hb.
  split; [lia|]. intros Hpast.
  assert (0 ≤ (today - d) / 86400000) by (apply Z.div_pos; lia). lia.
Qed.

Lemma daysUntil_rounds_up_witness :
  ∃ n, @daysUntil Host.platform (VStr "2024-01-03") = Some n
       ∧ 86400000 * (n - 1) < 86400000 * 2 ≤ 86400000 * n.
Proof.
  destruct (@daysUntil_rounds_up Host.platform (VStr "2024-01-03")
              (Host.days_from_civil 2024 1 3 * 86400000))
    as (n & Hn & Hbounds & _); [vm_compute; reflexivity|].
  assert (n = 2) as -> by (vm_compute in Hn; congruence).
  exists 2. split; [exact Hn | lia].
Defined.

(** ** What loading and importing leave alone *)

Section frames.
Context `{Platform}.

Lemma hydrate_frame (m : value) (source : list value) (s : State) :
  local (final (hydrate m source s)) = local s
  ∧ rawDataPath (final (hydrate m source s)) = rawDataPath s
  ∧ loadError (final (hydrate m source s)) = loadError s.
Proof. unfold hydrate. by destruct (normalize_from 0 source). Qed.

Lemma hydrateFromPayload_frame (p : payload) (s : State) :
  local (final (hydrateFromPayload p s)) = local s
  ∧ rawDataPath (final (hydrateFromPayload p s)) = rawDataPath s
  ∧ loadError (final (hydrateFromPayload p s)) = loadError s.
Proof. destruct p; apply hydrate_frame. Qed.

Lemma load_from_local (fetch : string → fetched) (candidates : list string)
    (s : State) :
  local (load_from fetch candidates s).1 = local s.
Proof.
  revert s. induction candidates as [|path rest IH]; intros s; simpl; [done|].
  destruct (fetch path) as [|[|] [p|]];
    try (specialize (IH s); by destruct (load_from fetch rest s)).
  pose proof (hydrateFromPayload_frame p s) as (Hl & _).
  destruct (hydrateFromPayload p s) as [s1|s1]; simpl in *; [done|].
  specialize (IH s1). destruct (load_from fetch rest s1). simpl in *.
  congruence.
Qed.


End frames.



(** X8. [importSnapshot] handles its two parts independently. A [local]
    mapping replaces the whole overlay (nothing of the old one is kept) and
    is persisted; without one the overlay and the storage stay as they
    were. The dataset is replaced only when [opportunities] is a list: a
    payload that carries its records under [items] imports none of them.
    When a record makes the Normalizer throw, the call throws before the
    overlay is looked at: the payload's [local] is not applied, the old
    opportunities stay, and only [meta] has changed. A payload that is a
    list or a primitive changes nothing. *)
Theorem importSnapshot_parts `{Platform} (o : Payload.object) (w : Store) :
  let w' := final (importSnapshot (PObject o) w) in
  ((∀ records, Payload.opportunities o ≠ Some (VArr records)) →
   opportunities (state w') = opportunities (state w)
   ∧ meta (state w') = meta (state w)) ∧
  (∀ records ops, Payload.opportunities o = Some (VArr records) →
     normalize_from 0 records = Ok ops →
     opportunities (state w') = ops
     ∧ meta (state w') = js_or (Payload._meta o) (VObj ∅)) ∧
  (∀ records l, normalize_from 0 records ≠ TypeError →
     (Payload.opportunities o = Some (VArr records)
      ∨ ∀ any, Payload.opportunities o ≠ Some (VArr any)) →
     Payload.local o = Some l →
     importSnapshot (PObject o) w = Returned w'
     ∧ local (state w') = l ∧ localStorage w' = Blob l) ∧
  (Payload.local o = None →
   local (state w') = local (state w)
   ∧ localStorage w' = localStorage w) ∧
  (∀ records, Payload.opportunities o = Some (VArr records) →
     normalize_from 0 records = TypeError →
     importSnapshot (PObject o) w = Threw w'
     ∧ local (state w') = local (state w)
     ∧ localStorage w' = localStorage w
     ∧ opportunities (state w') = opportunities (state w)
     ∧ meta (state w') = js_or (Payload._meta o) (VObj ∅)) ∧
  (∀ records, importSnapshot (PArray records) w = Returned w) ∧
  importSnapshot PPrimitive w = Returned w.
Proof.
  intros w'. subst w'. destruct w as [s storage].
  unfold importSnapshot. cbn [mbind option_bind state localStorage].
  split; [|split; [|split; [|split; [|split; [|split]]]]].
  - intros Hnot.
    destruct (Payload.opportunities o) as [[| | | |records|]|]; try done.
    + by destruct (Payload.local o).
    + by destruct (Payload.local o).
    + by destruct (Payload.local o).
    + by destruct (Payload.local o).
    + by destruct (Hnot records).
    + by destruct (Payload.local o).
    + by destruct (Payload.local o).
  - intros records ops Ho Hn. rewrite Ho.
    unfold hydrateFromPayload, hydrate, source_of. rewrite Ho, Hn.
    by destruct (Payload.local o).
  - intros records l Hn Ho Hl. rewrite Hl.
    destruct Ho as [Ho | Hnot].
    + rewrite Ho. unfold hydrateFromPayload, hydrate, source_of.
      rewrite Ho. by destruct (normalize_from 0 records).
    + destruct (Payload.opportunities o) as [[| | | |any|]|]; try done.
      by destruct (Hnot any).
  - intros Hl. rewrite Hl.
    destruct (Payload.opportunities o) as [[| | | |records|]|]; try done.
    pose proof (hydrateFromPayload_frame (PObject o) s) as (Hloc & _).
    by destruct (hydrateFromPayload (PObject o) s).
  - intros records Ho Hn. rewrite Ho.
    unfold hydrateFromPayload, hydrate, source_of. by rewrite Ho, Hn.
  - intros records. by destruct storage.
  - reflexivity.
Qed.

Lemma importSnapshot_parts_witness :
  opportunities
    (state (final (@importSnapshot Host.platform (PObject items_payload)
                     sample_store)))
  = opportunities (state sample_store)
  ∧ @importSnapshot Host.platform (PObject broken_snapshot) sample_store
    = Threw (final (@importSnapshot Host.platform (PObject broken_snapshot)
                      sample_store))
  ∧ local (state (final (@importSnapshot Host.platform
                           (PObject broken_snapshot) sample_store)))
    = local (state sample_store).
Proof.
  destruct (@importSnapshot_parts Host.platform items_payload sample_store)
    as (Hitems & _).
  destruct (@importSnapshot_parts Host.platform broken_snapshot sample_store)
    as (_ & _ & _ & _ & Hthrow & _).
  split; [apply Hitems; discriminate|].
  destruct (Hthrow [VObj {[ "label" := VStr "Appel A" ]}; VNull])
    as (Ht & Hl & _); [reflexivity | vm_compute; reflexivity |].
  split; [exact Ht | exact Hl].
Defined.

(** ** The loader, whatever the sources answer *)

Section loader_outcomes.
Context `{Platform}.

Lemma load_from_log_prefix (fetch : string → fetched)
    (candidates : list string) (s : State) :
  (load_from fetch candidates s).2 `prefix_of` candidates.
Proof.
  revert s. induction candidates as [|path rest IH]; intros s; simpl; [done|].
  destruct (fetch path) as [|[|] [p|]];
    try (specialize (IH s); destruct (load_from fetch rest s); simpl in *;
         by apply prefix_cons).
  destruct (hydrateFromPayload p s) as [s1|s1]; simpl.
  - apply prefix_cons, prefix_nil.
  - specialize (IH s1). destruct (load_from fetch rest s1); simpl in *.
    by apply prefix_cons.
Qed.

Lemma load_from_log_nonempty (fetch : string → fetched) (path : string)
    (rest : list string) (s : State) :
  (load_from fetch (path :: rest) s).2 ≠ [].
Proof.
  simpl. destruct (fetch path) as [|[|] [p|]];
    try (by destruct (load_from fetch rest s)).
  destruct (hydrateFromPayload p s) as [s1|s1]; [done|].
  by destruct (load_from fetch rest s1).
Qed.

(** The two ways the loop ends. *)
Lemma load_from_outcome (fetch : string → fetched) (candidates : list string)
    (s : State) :
  let s' := (load_from fetch candidates s).1 in
  let log := (load_from fetch candidates s).2 in
  (loadError s' = ""
   ∧ ∃ path p, last log = Some path ∧ rawDataPath s' = Some path
               ∧ fetch path = Response true (Some p)
               ∧ normalize_from 0 (records_of p) = Ok (opportunities s'))
  ∨ (loadError s' = LOAD_ERROR ∧ log = candidates
     ∧ opportunities s' = opportunities s
     ∧ rawDataPath s' = rawDataPath s).
Proof.
  revert s. induction candidates as [|path rest IH]; intros s; simpl.
  - right. done.
  - assert (∀ t, opportunities t = opportunities s →
                 rawDataPath t = rawDataPath s →
                 let r := load_from fetch rest t in
                 (loadError r.1 = ""
                  ∧ ∃ path0 p, last (path :: r.2) = Some path0
                               ∧ rawDataPath r.1 = Some path0
                               ∧ fetch path0 = Response true (Some p)
                               ∧ normalize_from 0 (records_of p)
                                 = Ok (opportunities r.1))
                 ∨ (loadError r.1 = LOAD_ERROR ∧ path :: r.2 = path :: rest
                    ∧ opportunities r.1 = opportunities s
                    ∧ rawDataPath r.1 = rawDataPath s)) as Hcontinue.
    { intros t Hops Hpath.
      destruct (IH t) as [(Herr & path0 & p & Hlast & Hraw & Hf & Hn)
                         | (Herr & Hlog & Hops' & Hraw)].
      - left. split; [done|]. exists path0, p.
        split; [|done].
        destruct (load_from fetch rest t).2 as [|q log]; [done|].
        by rewrite last_cons, Hlast.
      - right. simpl. rewrite Hlog. split; [done|]. split; [done|].
        split; congruence. }
    destruct (fetch path) as [|[|] [p|]] eqn:Hfetch;
      try (specialize (Hcontinue s eq_refl eq_refl);
           by destruct (load_from fetch rest s)).
    pose proof (hydrateFromPayload_frame p s) as (_ & Hraw & _).
    destruct (hydrateFromPayload p s) as [s1|s1] eqn:Hh; simpl in *.
    + left. split; [done|]. exists path, p.
      split; [done|]. split; [done|]. split; [done|].
      by apply hydrateFromPayload_Returned in Hh.
    + assert (opportunities s1 = opportunities s) as Hops.
      { destruct p as [records|o|]; simpl in Hh; unfold hydrate in Hh;
          match type of Hh with
          | context [normalize_from 0 ?l] => destruct (normalize_from 0 l)
          end; try discriminate; by injection Hh as <-. }
      specialize (Hcontinue s1 Hops Hraw).
      by destruct (load_from fetch rest s1).
Qed.
End loader_outcomes.

(** X9. However the sources answer, [loadDataset] fetches the candidates in
    their fixed order without skipping or repeating one, fetches at least
    the first, and never touches the overlay. It ends in one of two ways:
    loaded, with no load error, [rawDataPath] the last path fetched and the
    opportunities the normalized records of that path's payload; or in
    error, having tried every candidate, with the load-error message and
    the opportunities and [rawDataPath] of before. *)
Theorem loadDataset_outcomes `{Platform} (fetch : string → fetched)
    (s : State) :
  let s' := (loadDataset fetch s).1 in
  let log := (loadDataset fetch s).2 in
  local s' = local s ∧ log `prefix_of` DATA_CANDIDATES ∧ log ≠ [] ∧
  ((loadError s' = ""
    ∧ ∃ path p, last log = Some path ∧ rawDataPath s' = Some path
                ∧ fetch path = Response true (Some p)
                ∧ normalize_from 0 (records_of p) = Ok (opportunities s'))
   ∨ (loadError s' = LOAD_ERROR ∧ log = DATA_CANDIDATES
      ∧ opportunities s' = opportunities s
      ∧ rawDataPath s' = rawDataPath s)).
Proof.
  intros s' log. subst s' log. unfold loadDataset.
  split; [apply load_from_local|].
  split; [apply load_from_log_prefix|].
  split; [apply load_from_log_nonempty|apply load_from_outcome].
Qed.

(** X10. A payload that parses and holds no list of records counts as a
    successful load of nothing: the first candidate that answers with one
    ends the loop, the opportunities of an earlier load are gone, and no
    load error is raised. *)
Theorem shapeless_payload_loads_nothing `{Platform}
    (fetch : string → fetched) (s : State) (before after : list string)
    (path : string) (p : payload) :
  DATA_CANDIDATES = before ++ path :: after →
  (∀ q, q ∈ before → failed (fetch q) = true) →
  fetch path = Response true (Some p) →
  records_of p = [] →
  let s' := (loadDataset fetch s).1 in
  opportunities s' = [] ∧ loadError s' = ""
  ∧ rawDataPath s' = Some path
  ∧ (loadDataset fetch s).2 = before ++ [path].
Proof.
  intros Hsplit Hbefore Hpath Hrecords s'. subst s'. unfold loadDataset.
  destruct (hydrateFromPayload_accepts p s []) as (s1 & Hh & Hops & _);
    [by rewrite Hrecords|].
  rewrite Hsplit.
  rewrite (load_from_first_success fetch before after path p s s1
             Hbefore Hpath Hh). simpl.
  by rewrite Hops.
Qed.

Lemma shapeless_payload_loads_nothing_witness :
  let fetch path :=
    if String.eqb path "data/opportunities.seed.json"
    then Response true (Some shapeless_payload)
    else Response true (Some two_bare_records) in
  let s := (@loadDataset Host.platform fetch_second
              (state (createStore Absent))).1 in
  length (opportunities s) = 2%nat
  ∧ opportunities (@loadDataset Host.platform fetch s).1 = []
  ∧ loadError (@loadDataset Host.platform fetch s).1 = "".
Proof.
  intros fetch s. split; [vm_compute; reflexivity|].
  destruct (@shapeless_payload_loads_nothing Host.platform fetch s []
              ["./data/opportunities.json"; "./data/data.json"]
              "data/opportunities.seed.json" shapeless_payload)
    as (Hops & Herr & _);
    [reflexivity | | reflexivity | reflexivity |].
  { intros q Hq. by apply elem_of_nil in Hq. }
  split; [exact Hops | exact Herr].
Defined.

(** X11. A candidate whose payload parses and whose records make the
    Normalizer throw is passed over like a failed one, but not without
    trace: when every other candidate fails, the load ends in error with
    the opportunities of before and with [meta] already replaced by the
    rejected payload's. *)
Theorem rejected_payload_replaces_meta `{Platform}
    (fetch : string → fetched) (s : State) (before after : list string)
    (path : string) (p : payload) :
  DATA_CANDIDATES = before ++ path :: after →
  (∀ q, q ∈ before ++ after → failed (fetch q) = true) →
  fetch path = Response true (Some p) →
  normalize_from 0 (records_of p) = TypeError →
  let s' := (loadDataset fetch s).1 in
  loadError s' = LOAD_ERROR
  ∧ opportunities s' = opportunities s
  ∧ meta s' = match p with
              | PObject o => js_or (Payload._meta o) (VObj ∅)
              | _ => VObj ∅
              end
  ∧ (loadDataset fetch s).2 = DATA_CANDIDATES.
Proof.
  intros Hsplit Hfail Hpath Hn s'. subst s'. unfold loadDataset.
  rewrite Hsplit. clear Hsplit.
  induction before as [|q before IH]; simpl.
  - rewrite Hpath.
    assert (∃ m, hydrateFromPayload p s = Threw (set_meta m s)
                 ∧ m = match p with
                       | PObject o => js_or (Payload._meta o) (VObj ∅)
                       | _ => VObj ∅
                       end) as (m & -> & Hm).
    { destruct p as [records|o|]; simpl in *; unfold hydrate;
        try rewrite Hn; eauto. discriminate. }
    rewrite load_from_all_failed
      by (intros r Hr; apply Hfail; exact Hr).
    simpl. by rewrite Hm.
  - assert (failed (fetch q) = true) as Hq
      by (apply Hfail; simpl; apply elem_of_cons; by left).
    destruct IH as (Herr & Hops & Hmeta & Hlog).
    { intros r Hr. apply Hfail. simpl. apply elem_of_cons. by right. }
    destruct (load_from fetch (before ++ path :: after) s) as [s1 log].
    simpl in *.
    destruct (fetch q) as [|[|] [pq|]]; simpl in Hq; try discriminate;
      simpl; by rewrite Hlog.
Qed.

Lemma rejected_payload_replaces_meta_witness :
  let fetch path :=
    if String.eqb path "./data/opportunities.json"
    then Response true (Some broken_payload) else NetworkError in
  let s := (@loadDataset Host.platform fetch_second
              (state (createStore Absent))).1 in
  meta s = VObj ∅
  ∧ meta (@loadDataset Host.platform fetch s).1
    = VObj {[ "generated_at" := VStr "hier" ]}
  ∧ opportunities (@loadDataset Host.platform fetch s).1 = opportunities s
  ∧ loadError (@loadDataset Host.platform fetch s).1 = LOAD_ERROR.
Proof.
  intros fetch s. split; [vm_compute; reflexivity|].
  destruct (@rejected_payload_replaces_meta Host.platform fetch s
              ["data/opportunities.seed.json"] ["./data/data.json"]
              "./data/opportunities.json" broken_payload)
    as (Herr & Hops & Hmeta & _);
    [reflexivity | | reflexivity | vm_compute; reflexivity |].
  { intros q Hq. simpl in Hq.
    repeat (apply elem_of_cons in Hq as [-> | Hq]; [reflexivity|]).
    by apply elem_of_nil in Hq. }
  split; [rewrite Hmeta; reflexivity|]. split; [exact Hops | exact Herr].
Defined.

(** ** The drawer total on any score object *)

Section totals.
Context `{Platform}.




End totals.



(** ** The recommendation at its edges *)

Lemma drop_spaces_all (l : list ascii) (fuel : nat) :
  Forall (λ c, ascii_space c = true) l → (length l ≤ fuel)%nat →
  drop_spaces fuel false l = [].
Proof.
  revert l. induction fuel as [|fuel IH]; intros l Hl Hlen.
  - destruct l; [done|simpl in Hlen; lia].
  - destruct l as [|c l]; [done|].
    apply Forall_cons in Hl as [Hc Hl]. simpl. rewrite Hc.
    apply IH; [done|]. simpl in Hlen. lia.
Qed.

Lemma trim_blank (b : string) :
  Forall (λ c, ascii_space c = true) (list_ascii_of_string b) →
  trim b = "".
Proof.
  intros Hb. unfold trim. by rewrite drop_spaces_all.
Qed.

(** X13. [recommendation] at its edges. Blockers that are missing, empty or
    made of nothing but spaces, tabs and line breaks do not veto. Without a
    veto a total that is not a number gives [No-Go]. The thresholds are
    monotone: a higher total never loses a [Go], a lower one never leaves
    [No-Go]. And with a veto the total does not matter at all. *)
Theorem recommendation_edges :
  (∀ score, recommendation score None = recommendation score (Some "")) ∧
  (∀ score b,
     Forall (λ c, ascii_space c = true) (list_ascii_of_string b) →
     recommendation score (Some b) = recommendation score None) ∧
  recommendation None None = "No-Go" ∧
  (∀ b n m, n ≤ m → recommendation (Some n) b = "Go" →
            recommendation (Some m) b = "Go") ∧
  (∀ b n m, n ≤ m → recommendation (Some m) b = "No-Go" →
            recommendation (Some n) b = "No-Go") ∧
  (∀ b score score', trim b ≠ "" →
     recommendation score (Some b) = recommendation score' (Some b)).
Proof.
  split; [done|]. split; [|split; [done|split; [|split]]].
  - intros score b Hb. unfold recommendation. by rewrite trim_blank.
  - intros b n m Hnm. unfold recommendation, number_ge.
    destruct (match b with
              | Some b0 => negb (String.eqb (trim b0) "")
              | None => false
              end); [done|].
    destruct (Z.leb_spec 20 n), (Z.leb_spec 20 m); try done; try lia.
    by destruct (12 <=? n).
  - intros b n m Hnm. unfold recommendation, number_ge.
    destruct (match b with
              | Some b0 => negb (String.eqb (trim b0) "")
              | None => false
              end); [done|].
    destruct (Z.leb_spec 20 n), (Z.leb_spec 20 m); try done; try lia.
    destruct (Z.leb_spec 12 n), (Z.leb_spec 12 m); try done; lia.
  - intros b score score' Hb. unfold recommendation.
    apply String.eqb_neq in Hb. by rewrite Hb.
Qed.

Lemma recommendation_edges_witness :
  recommendation (Some 25) (Some (String (ascii_of_nat 9) " "))
  = recommendation (Some 25) None
  ∧ recommendation (Some 25) None = "Go"
  ∧ recommendation (Some 3) (Some "permis") = "No-Go (blockers)".
Proof.
  destruct recommendation_edges as (_ & Hblank & _ & Hgo & _ & Hveto).
  split; [|split].
  - apply Hblank. repeat constructor.
  - apply (Hgo None 20 25); [lia | reflexivity].
  - rewrite (Hveto "permis" (Some 3) (Some 25)); [reflexivity|].
    vm_compute. discriminate.
Defined.

Section patched_scores.
Context `{Platform}.


End patched_scores.



(** ** Steps on the pipeline, composed *)

Lemma patchLocal_twice (id : string) (p1 p2 : gmap string value)
    (w : Store) :
  patchLocal id p2 (patchLocal id p1 w) = patchLocal id (p2 ∪ p1) w.
Proof.
  unfold patchLocal, persistLocalState, set_local, getLocal; simpl.
  rewrite lookup_insert_eq, insert_insert_eq.
  by rewrite (assoc_L (∪)).
Qed.

Lemma moveStatus_twice (w : Store) (id : string) (d1 d2 : Z) (i : nat)
    (s : string) :
  PIPELINE_STATUSES !! i = Some s →
  getLocal (state w) id !! "status" = Some (VStr s) →
  0 ≤ Z.of_nat i + d1 < 6 → 0 ≤ Z.of_nat i + d1 + d2 < 6 →
  ∃ next,
    PIPELINE_STATUSES !! Z.to_nat (Z.of_nat i + d1 + d2) = Some next
    ∧ moveStatus id d2 (moveStatus id d1 w)
      = patchLocal id {[ "status" := VStr next ]} w
    ∧ moveStatus id (d1 + d2) w = patchLocal id {[ "status" := VStr next ]} w.
Proof.
  intros Hi Hs H1 H2.
  destruct (at_index_Some PIPELINE_STATUSES (Z.of_nat i + d1))
    as (n1 & Hn1 & Ha1); [simpl; lia|].
  destruct (at_index_Some PIPELINE_STATUSES (Z.of_nat i + d1 + d2))
    as (n2 & Hn2 & Ha2); [simpl; lia|].
  exists n2. split; [done|].
  rewrite (moveStatus_found w id d1 i s Hi Hs), Ha1.
  rewrite (moveStatus_found w id (d1 + d2) i s Hi Hs).
  replace (Z.of_nat i + (d1 + d2)) with (Z.of_nat i + d1 + d2) by lia.
  rewrite Ha2. split; [|done].
  rewrite (moveStatus_found _ id d2 (Z.to_nat (Z.of_nat i + d1)) n1 Hn1)
    by apply status_after_patch.
  replace (Z.of_nat (Z.to_nat (Z.of_nat i + d1)) + d2)
    with (Z.of_nat i + d1 + d2) by lia.
  rewrite Ha2, patchLocal_twice. by f_equal.
Qed.

(** X15. Steps on the pipeline add up: from a status of the fixed order, a
    move by [d1] followed by a move by [d2] leaves the very store that one
    move by [d1 + d2] leaves, as long as both stops are positions of the
    order. *)
Theorem moveStatus_steps_add_up (w : Store) (id : string) (d1 d2 : Z)
    (i : nat) (s : string) :
  PIPELINE_STATUSES !! i = Some s →
  getLocal (state w) id !! "status" = Some (VStr s) →
  0 ≤ Z.of_nat i + d1 < 6 → 0 ≤ Z.of_nat i + d1 + d2 < 6 →
  moveStatus id d2 (moveStatus id d1 w) = moveStatus id (d1 + d2) w.
Proof.
  intros Hi Hs H1 H2.
  destruct (moveStatus_twice w id d1 d2 i s Hi Hs H1 H2)
    as (next & _ & -> & ->). reflexivity.
Qed.

Lemma moveStatus_steps_add_up_witness :
  let w := createStore Absent in
  moveStatus "aide-1" 3 (moveStatus "aide-1" 2 w) = moveStatus "aide-1" 5 w.
Proof.
  intros w.
  apply (moveStatus_steps_add_up w "aide-1" 2 3 0 "À qualifier");
    [vm_compute; reflexivity | vm_compute; reflexivity | lia | lia].
Defined.

(** X16. A step forward and a step back. From any status of the order but
    the last, moving forward and then back restores the annotation. When
    the opportunity already had an entry the whole overlay is as before;
    when it had none, the default annotation is now stored for it. Either
    way the durable storage holds the overlay. *)
Theorem moveStatus_forward_and_back (w : Store) (id : string) (i : nat)
    (s next : string) :
  PIPELINE_STATUSES !! i = Some s →
  PIPELINE_STATUSES !! S i = Some next →
  getLocal (state w) id !! "status" = Some (VStr s) →
  let w2 := moveStatus id (-1) (moveStatus id 1 w) in
  getLocal (state w2) id = getLocal (state w) id
  ∧ (is_Some (local (state w) !! id) → local (state w2) = local (state w))
  ∧ (local (state w) !! id = None →
     local (state w2) = <[id := default_annotation]> (local (state w)))
  ∧ localStorage w2 = Blob (local (state w2)).
Proof.
  intros Hi Hnext Hs w2. subst w2.
  assert (S i < 6)%nat as Hlt
    by (apply lookup_lt_Some in Hnext; simpl in Hnext; lia).
  destruct (moveStatus_twice w id 1 (-1) i s Hi Hs) as (s' & Hs' & -> & _);
    [lia | lia |].
  replace (Z.to_nat (Z.of_nat i + 1 + -1)) with i in Hs' by lia.
  assert (s' = s) as -> by congruence.
  assert ({[ "status" := VStr s ]} ∪ getLocal (state w) id
          = getLocal (state w) id) as Hsame.
  { rewrite <- insert_union_singleton_l. by apply insert_id. }
  split; [by rewrite getLocal_patchLocal|].
  unfold patchLocal; simpl. rewrite Hsame.
  split; [|split; [|done]].
  - intros [a Ha]. unfold getLocal. rewrite Ha. by apply insert_id.
  - intros Hnone. unfold getLocal. by rewrite Hnone.
Qed.

Lemma moveStatus_forward_and_back_witness :
  let w := createStore
             (Blob {[ "aide-1" := {[ "status" := VStr "Go";
                                      "owner" := VStr "X" ]} ]}) in
  local (state (moveStatus "aide-1" (-1) (moveStatus "aide-1" 1 w)))
  = local (state w)
  ∧ local (state (moveStatus "aide-2" (-1) (moveStatus "aide-2" 1 w)))
    = <[ "aide-2" := default_annotation ]> (local (state w)).
Proof.
  intros w. split.
  - apply (moveStatus_forward_and_back w "aide-1" 2 "Go" "No-Go");
      [reflexivity | reflexivity | vm_compute; reflexivity|].
    eexists. vm_compute. reflexivity.
  - apply (moveStatus_forward_and_back w "aide-2" 0 "À qualifier"
             "En analyse");
      [reflexivity | reflexivity | vm_compute; reflexivity|].
    vm_compute. reflexivity.
Defined.

(** ** Doing it twice *)

Section twice.
Context `{Platform}.

Lemma hydrate_overwrite (m : value) (source : list value) (s : State) :
  hydrate m source s
  = match normalize_from 0 source with
    | Ok l => Returned (set_opportunities l (set_meta m s))
    | TypeError => Threw (set_meta m s)
    end.
Proof. reflexivity. Qed.

(** What [hydrateFromPayload] is about to write, read off the payload. *)
Lemma hydrateFromPayload_cases (p : payload) :
  ∃ m, (∀ s, hydrateFromPayload p s = Threw (set_meta m s))
       ∨ ∃ l, ∀ s, hydrateFromPayload p s
                   = Returned (set_opportunities l (set_meta m s)).
Proof.
  destruct p as [records|o|]; simpl; unfold hydrate.
  - exists (VObj ∅). destruct (normalize_from 0 records); eauto.
  - exists (js_or (Payload._meta o) (VObj ∅)).
    destruct (normalize_from 0 (source_of o)); eauto.
  - exists (VObj ∅). simpl. eauto.
Qed.

Lemma load_from_overwrite (fetch : string → fetched)
    (candidates : list string) :
  ∃ m loaded log,
    ∀ s, load_from fetch candidates s = (overwrite m loaded s, log).
Proof.
  induction candidates as [|path rest (m & loaded & log & IH)].
  - exists None, None, []. by intros [].
  - simpl. destruct (fetch path) as [|[|] [p|]];
      try (exists m, loaded, (path :: log); intros s; by rewrite IH).
    destruct (hydrateFromPayload_cases p) as (mp & [Hthrow | (l & Hret)]).
    + exists (Some (match m with Some v => v | None => mp end)), loaded,
        (path :: log).
      intros s. rewrite Hthrow, IH.
      f_equal; destruct s, m, loaded as [[]|]; reflexivity.
    + exists (Some mp), (Some (l, path)), [path].
      intros s. rewrite Hret. by destruct s.
Qed.
End twice.

(** X17. What [loadDataset] writes does not depend on the state it starts
    from: the same fields get the same values, and the same candidates are
    fetched. So loading again from sources that answer the same changes
    nothing. *)
Theorem loadDataset_twice `{Platform} (fetch : string → fetched) :
  (∃ m loaded, ∀ s, (loadDataset fetch s).1 = overwrite m loaded s) ∧
  (∀ s t, (loadDataset fetch s).2 = (loadDataset fetch t).2) ∧
  (∀ s, (loadDataset fetch (loadDataset fetch s).1).1
        = (loadDataset fetch s).1).
Proof.
  unfold loadDataset.
  destruct (load_from_overwrite fetch DATA_CANDIDATES)
    as (m & loaded & log & Hload).
  split; [|split].
  - exists m, loaded. intros s. by rewrite Hload.
  - intros s t. by rewrite !Hload.
  - intros s. rewrite !Hload. simpl.
    destruct s, m, loaded as [[]|]; reflexivity.
Qed.

(** X18. Importing the same payload a second time changes nothing more,
    whether the import returns or throws. *)
Theorem importSnapshot_twice `{Platform} (p : payload) (w : Store) :
  run (ImportSnapshot p) (run (ImportSnapshot p) w)
  = run (ImportSnapshot p) w.
Proof.
  unfold run. destruct p as [records|o|]; [by destruct w| |by destruct w].
  unfold importSnapshot. cbn [mbind option_bind].
  destruct (hydrateFromPayload_cases (PObject o))
    as (m & [Hthrow | (ops & Hret)]);
    destruct (Payload.local o) as [l|],
      (Payload.opportunities o) as [[| | | |records|]|];
    try (by destruct w as [[] ?]).
  - rewrite !Hthrow. by destruct w as [[] ?].
  - rewrite !Hthrow. by destruct w as [[] ?].
  - rewrite !Hret. by destruct w as [[] ?].
  - rewrite !Hret. by destruct w as [[] ?].
Qed.

(** ** What the query shows *)

Section query.
Context `{Platform}.

Lemma filteredOpportunities_elem (s : State) (f : Filters.t) (o : Op.t) :
  o ∈ filteredOpportunities s f ↔ o ∈ opportunities s ∧ keep s f o = true.
Proof.
  unfold filteredOpportunities. rewrite js_sort_Permutation.
  by rewrite list_elem_of_filter, (comm and).
Qed.

Lemma matches_true (filter v : string) :
  matches filter v = true → filter ≠ "" → v = filter.
Proof.
  unfold matches. intros Hm Hf. apply orb_true_iff in Hm as [Hm | Hm].
  - by apply String.eqb_eq in Hm.
  - by apply String.eqb_eq.
Qed.

Lemma includes_empty (h : string) : includes h "" = true.
Proof. by destruct h. Qed.

Lemma is_urgent_spec (o : Op.t) :
  is_urgent o = true
  ↔ ∃ d, parseDate (VStr (Op.deadline o)) = Some d
         ∧ d - today ≤ 6 * 86400000.
Proof.
  unfold is_urgent, daysUntil.
  destruct (parseDate (VStr (Op.deadline o))) as [d|].
  - rewrite Z.ltb_lt.
    pose proof (Z.div_mod (today - d) 86400000 ltac:(lia)) as Hdm.
    pose proof (Z.mod_pos_bound (today - d) 86400000 ltac:(lia)) as Hb.
    split.
    + intros Hlt. exists d. split; [done|]. lia.
    + intros (d' & [= <-] & Hle). lia.
  - split; [done|]. by intros (d & Hd & _).
Qed.
End query.

(** X19. The query shows exactly the opportunities of the dataset that pass
    every clause, no more and no fewer, each as often as the dataset holds
    it. What is shown therefore agrees with each filter that is set: type,
    category, axis and territory are equal to the filter, the deadline (or
    9999-12-31 without one) lies between the bounds that are set, and under
    the urgent filter the opportunity is urgent. *)
Theorem filteredOpportunities_shows_what_passes `{Platform} (s : State)
    (f : Filters.t) :
  filteredOpportunities s f
  ≡ₚ filter (λ o, keep s f o = true) (opportunities s) ∧
  (length (filteredOpportunities s f) ≤ length (opportunities s))%nat ∧
  (∀ o, o ∈ filteredOpportunities s f
        ↔ o ∈ opportunities s ∧ keep s f o = true) ∧
  (∀ o, o ∈ filteredOpportunities s f →
     (Filters.type f ≠ "" → Op.type o = Filters.type f)
     ∧ (Filters.category f ≠ "" → Op.category o = Filters.category f)
     ∧ (Filters.axis f ≠ "" → Op.axis o = Filters.axis f)
     ∧ (Filters.territory f ≠ "" → Op.territory o = Filters.territory f)
     ∧ (Filters.min f ≠ "" → String.leb (Filters.min f) (due o) = true)
     ∧ (Filters.max f ≠ "" → String.leb (due o) (Filters.max f) = true)
     ∧ (Filters.urgent f = true → is_urgent o = true)).
Proof.
  split; [apply js_sort_Permutation|]. split.
  { unfold filteredOpportunities. rewrite js_sort_Permutation.
    apply length_filter. }
  split; [apply filteredOpportunities_elem|].
  intros o Ho. apply filteredOpportunities_elem in Ho as [_ Hkeep].
  unfold keep in Hkeep.
  repeat match type of Hkeep with
         | _ && _ = true =>
             let H' := fresh "Hclause" in
             apply andb_true_iff in Hkeep as [Hkeep H']
         end.
  unfold inRange in Hclause0.
  apply andb_true_iff in Hclause0 as [Hmin Hmax].
  split; [by apply matches_true|]. split; [by apply matches_true|].
  split; [by apply matches_true|]. split; [by apply matches_true|].
  split; [|split].
  - intros Hf. apply orb_true_iff in Hmin as [Hmin | Hmin]; [|done].
    by apply String.eqb_eq in Hmin.
  - intros Hf. apply orb_true_iff in Hmax as [Hmax | Hmax]; [|done].
    by apply String.eqb_eq in Hmax.
  - intros Hu. rewrite Hu in Hclause. exact Hclause.
Qed.

Lemma filteredOpportunities_shows_what_passes_witness :
  let f := {| Filters.search := ""; Filters.type := "";
              Filters.category := ""; Filters.axis := "";
              Filters.territory := ""; Filters.min := "2024-01-01";
              Filters.max := "2024-12-31"; Filters.urgent := false;
              Filters.sort := "asc" |} in
  map Op.id (@filteredOpportunities Host.platform dated_state f) = ["proche"]
  ∧ ∀ o, o ∈ @filteredOpportunities Host.platform dated_state f →
         String.leb "2024-01-01" (due o) = true
         ∧ String.leb (due o) "2024-12-31" = true.
Proof.
  intros f. split; [vm_compute; reflexivity|].
  intros o Ho.
  destruct (@filteredOpportunities_shows_what_passes Host.platform
              dated_state f) as (_ & _ & _ & Hclauses).
  destruct (Hclauses o Ho) as (_ & _ & _ & _ & Hmin & Hmax & _).
  split; [apply Hmin | apply Hmax]; discriminate.
Defined.

Lemma filter_all {A : Type} (P : A → Prop) `{∀ x, Decision (P x)}
    (l : list A) :
  Forall P l → filter P l = l.
Proof.
  induction 1 as [|x l Hx _ IH]; [done|].
  by rewrite filter_cons, decide_True, IH.
Qed.

(** X20. With no filter set, and on a host whose lower-casing leaves the
    empty string empty, the query shows every opportunity of the dataset,
    in either sort direction. *)
Theorem no_filter_shows_everything `{Platform} (s : State) (sort : string) :
  toLowerCase "" = "" →
  filteredOpportunities s (no_filter sort) ≡ₚ opportunities s
  ∧ length (filteredOpportunities s (no_filter sort))
    = length (opportunities s).
Proof.
  intros Hlower.
  assert (filteredOpportunities s (no_filter sort) ≡ₚ opportunities s)
    as Hperm.
  { unfold filteredOpportunities. rewrite js_sort_Permutation.
    rewrite filter_all; [done|].
    apply Forall_forall. intros o _.
    unfold keep, textIncludes, no_filter, inRange, matches. simpl.
    by rewrite Hlower, includes_empty. }
  split; [done|]. by rewrite Hperm.
Qed.

Lemma no_filter_shows_everything_witness :
  length (@filteredOpportunities Host.platform dated_state (no_filter "desc"))
  = 3%nat.
Proof.
  destruct (@no_filter_shows_everything Host.platform dated_state "desc")
    as (_ & ->); [reflexivity | vm_compute; reflexivity].
Defined.

(** X21. An opportunity is urgent exactly when its deadline reads as a date
    that lies at most six days after local midnight today. So a deadline
    that is already past is urgent, an opportunity without a deadline never
    is, and the urgent filter never shows an undated opportunity. *)
Theorem urgent_means_due_within_six_days `{Platform} (o : Op.t) :
  (is_urgent o = true
   ↔ ∃ d, parseDate (VStr (Op.deadline o)) = Some d
          ∧ d - today ≤ 6 * 86400000) ∧
  (∀ d, parseDate (VStr (Op.deadline o)) = Some d → d ≤ today →
        is_urgent o = true) ∧
  (Op.deadline o = "" → is_urgent o = false) ∧
  (∀ s f, Op.deadline o = "" → Filters.urgent f = true →
          o ∉ filteredOpportunities s f).
Proof.
  split; [apply is_urgent_spec|]. split; [|split].
  - intros d Hd Hpast. apply is_urgent_spec. exists d. split; [done|]. lia.
  - intros Hd. unfold is_urgent, daysUntil, parseDate. by rewrite Hd.
  - intros s f Hd Hu Hin.
    apply filteredOpportunities_elem in Hin as [_ Hkeep].
    unfold keep in Hkeep. apply andb_true_iff in Hkeep as [_ Hurgent].
    rewrite Hu in Hurgent. unfold daysUntil, parseDate in Hurgent.
    rewrite Hd in Hurgent. discriminate.
Qed.

Lemma urgent_means_due_within_six_days_witness :
  let late := Op.Build_t "a" (VStr "A") "" "" "" "" "2023-12-01" (VStr "")
                VNull in
  let undated := Op.Build_t "b" (VStr "B") "" "" "" "" "" (VStr "") VNull in
  @is_urgent Host.platform late = true
  ∧ @is_urgent Host.platform undated = false.
Proof.
  intros late undated. split.
  - apply (proj1 (proj2 (@urgent_means_due_within_six_days Host.platform
                           late))
             (Host.days_from_civil 2023 12 1 * 86400000));
      vm_compute; [reflexivity | discriminate].
  - apply (@urgent_means_due_within_six_days Host.platform undated).
    reflexivity.
Defined.

(** X22. Under a consistent collation what the query shows is in order:
    ascending, no opportunity is followed by one whose deadline (or
    9999-12-31 without one) collates before its own; descending, by one
    whose deadline collates after its own. The two directions show the same
    opportunities, and in descending order the undated ones come before
    every dated one that collates before 9999-12-31. *)
Theorem filteredOpportunities_is_in_order `{Collation} (s : State)
    (f : Filters.t) :
  (∀ (i j : nat) (a b : Op.t),
     (i < j)%nat →
     filteredOpportunities s f !! i = Some a →
     filteredOpportunities s f !! j = Some b →
     (Filters.sort f = "asc" → localeCompare (due a) (due b) ≤ 0)
     ∧ (Filters.sort f ≠ "asc" → localeCompare (due b) (due a) ≤ 0)) ∧
  (∀ (i j : nat) (undated dated : Op.t),
     Filters.sort f ≠ "asc" →
     filteredOpportunities s f !! i = Some undated →
     filteredOpportunities s f !! j = Some dated →
     Op.deadline undated = "" → Op.deadline dated ≠ "" →
     localeCompare (Op.deadline dated) "9999-12-31" < 0 →
     (i < j)%nat).
Proof.
  assert (∀ (i j : nat) (a b : Op.t),
            (i < j)%nat →
            filteredOpportunities s f !! i = Some a →
            filteredOpportunities s f !! j = Some b →
            by_deadline f a b ≤ 0) as Hsorted.
  { intros i j a b Hij Hi Hj.
    apply (StronglySorted_lookup _ _
             (js_sort_StronglySorted (by_deadline f)
                (by_deadline_total f) (by_deadline_trans f) _)
             i j a b Hij Hi Hj). }
  split.
  - intros i j a b Hij Hi Hj.
    specialize (Hsorted i j a b Hij Hi Hj). unfold by_deadline in Hsorted.
    split; intros Hsort.
    + by rewrite Hsort in Hsorted.
    + apply String.eqb_neq in Hsort. by rewrite Hsort in Hsorted.
  - intros i j undated dated Hsort Hi Hj Hun Hne Hbefore.
    destruct (Nat.lt_trichotomy i j) as [Hlt | [-> | Hgt]]; [done| |].
    + rewrite Hi in Hj. injection Hj as ->. done.
    + exfalso.
      specialize (Hsorted j i dated undated Hgt Hj Hi).
      unfold by_deadline in Hsorted.
      apply String.eqb_neq in Hsort. rewrite Hsort in Hsorted.
      rewrite (due_undated _ Hun), (due_dated _ Hne) in Hsorted.
      pose proof (localeCompare_flip (Op.deadline dated) "9999-12-31"). lia.
Qed.

Lemma filteredOpportunities_is_in_order_witness :
  map Op.id (@filteredOpportunities Host.platform dated_state
               (no_filter "desc"))
  = ["sans-date"; "lointain"; "proche"]
  ∧ @localeCompare Host.platform "2024-06-01" "9999-12-31" ≤ 0
  ∧ (0 < 2)%nat.
Proof.
  destruct (@filteredOpportunities_is_in_order Host.platform Host_collation
              dated_state (no_filter "desc")) as (Horder & Hundated).
  split; [vm_compute; reflexivity|]. split.
  - apply (Horder 1%nat 2%nat
             (Op.Build_t "lointain" (VStr "Sans titre") "" "" "" ""
                "9999-12-31" (VStr "")
                (VObj {[ "id" := VStr "lointain";
                         "deadline" := VStr "9999-12-31" ]}))
             (Op.Build_t "proche" (VStr "Sans titre") "" "" "" ""
                "2024-06-01" (VStr "")
                (VObj {[ "id" := VStr "proche";
                         "deadline" := VStr "2024-06-01" ]})));
      [lia | vm_compute; reflexivity | vm_compute; reflexivity | discriminate].
  - apply (Hundated 0%nat 2%nat
             (Op.Build_t "sans-date" (VStr "Sans titre") "" "" "" "" ""
                (VStr "") (VObj {[ "id" := VStr "sans-date" ]}))
             (Op.Build_t "proche" (VStr "Sans titre") "" "" "" ""
                "2024-06-01" (VStr "")
                (VObj {[ "id" := VStr "proche";
                         "deadline" := VStr "2024-06-01" ]})));
      [discriminate | vm_compute; reflexivity | vm_compute; reflexivity
      | reflexivity | discriminate | vm_compute; reflexivity].
Defined.

(** ** The values offered by the filters *)

#[local] Set Warnings "-clear-no-such-hyp".

Lemma distinct_elem (l : list string) :
  ∀ seen x, x ∈ distinct seen l ↔ x ∈ l ∧ x ∉ seen.
Proof.
  induction l as [|y l IH]; intros seen x; simpl.
  - rewrite elem_of_nil. naive_solver.
  - destruct (bool_decide_reflect (y ∈ seen)) as [Hy|Hy].
    + rewrite IH, elem_of_cons. naive_solver.
    + rewrite !elem_of_cons, IH, elem_of_cons.
      destruct (decide (x = y)); naive_solver.
Qed.

Lemma distinct_NoDup (l : list string) : ∀ seen, NoDup (distinct seen l).
Proof.
  induction l as [|y l IH]; intros seen; simpl; [constructor|].
  destruct (bool_decide_reflect (y ∈ seen)) as [Hy|Hy]; [apply IH|].
  constructor; [|apply IH].
  rewrite distinct_elem, elem_of_cons. naive_solver.
Qed.

(** X23. [uniqueValues] offers each value once: its result has no
    duplicate and no empty string, holds exactly the non-empty values that
    the accessor gives on some item, and is in the order of the collation
    when that is a consistent one. *)
Theorem uniqueValues_offers_each_value_once {A : Type}
    (compare : string → string → Z) (items : list A)
    (accessor : A → string) :
  NoDup (uniqueValues compare items accessor) ∧
  (∀ v, v ∈ uniqueValues compare items accessor
        ↔ v ≠ "" ∧ ∃ item, item ∈ items ∧ accessor item = v) ∧
  ((∀ a b, 0 < compare a b → compare b a ≤ 0) →
   (∀ a b c, compare a b ≤ 0 → compare b c ≤ 0 → compare a c ≤ 0) →
   StronglySorted (λ a b, compare a b ≤ 0)
     (uniqueValues compare items accessor)).
Proof.
  unfold uniqueValues. split; [|split].
  - rewrite js_sort_Permutation. apply distinct_NoDup.
  - intros v. rewrite js_sort_Permutation, distinct_elem.
    rewrite list_elem_of_filter, list_elem_of_fmap, elem_of_nil.
    naive_solver.
  - intros Htotal Htrans. by apply js_sort_StronglySorted.
Qed.

Lemma uniqueValues_offers_each_value_once_witness :
  uniqueValues Host.collate (opportunities dated_state) Op.deadline
  = ["2024-06-01"; "9999-12-31"]
  ∧ StronglySorted (λ a b, Host.collate a b ≤ 0)
      (uniqueValues Host.collate (opportunities dated_state) Op.deadline).
Proof.
  split; [vm_compute; reflexivity|].
  apply uniqueValues_offers_each_value_once.
  - intros a b Hab.
    pose proof (@localeCompare_flip Host.platform Host_collation a b) as Hf.
    simpl in Hf. lia.
  - intros a b c. apply (@localeCompare_trans Host.platform Host_collation).
Defined.

(** ** The kanban *)

Lemma has_status_true (s : State) (status : string) (o : Op.t) :
  has_status s status o = true
  ↔ getLocal s (Op.id o) !! "status" = Some (VStr status).
Proof.
  unfold has_status.
  destruct (getLocal s (Op.id o) !! "status") as [[| | |t| |]|];
    try (split; [discriminate | congruence]).
  rewrite String.eqb_eq. split; congruence.
Qed.

Lemma kanban_columns_elem (s : State) (status : string) (cards : list Op.t) :
  (status, cards) ∈ kanban_columns s ↔
  status ∈ PIPELINE_STATUSES
  ∧ cards = filter (λ o, has_status s status o = true) (opportunities s).
Proof.
  unfold kanban_columns. rewrite list_elem_of_fmap. split.
  - intros (st & [= -> ->] & Hst). done.
  - intros [Hst ->]. by exists status.
Qed.



(** X25. The arrow of a kanban card moves it one column on: after
    [moveStatus(id, 1)] from a status of the order that is not the last, an
    opportunity with that identifier sits in the column of the next status
    and no longer in the column it came from. *)
Theorem moveStatus_moves_the_card (w : Store) (o : Op.t) (i : nat)
    (s next : string) :
  o ∈ opportunities (state w) →
  PIPELINE_STATUSES !! i = Some s →
  PIPELINE_STATUSES !! S i = Some next →
  getLocal (state w) (Op.id o) !! "status" = Some (VStr s) →
  let w' := moveStatus (Op.id o) 1 w in
  o ∈ filter (λ o, has_status (state w') next o = true)
        (opportunities (state w'))
  ∧ (o ∉ filter (λ o, has_status (state w') s o = true)
           (opportunities (state w')))
  ∧ (s, filter (λ o, has_status (state w') s o = true)
          (opportunities (state w'))) ∈ kanban_columns (state w')
  ∧ (next, filter (λ o, has_status (state w') next o = true)
             (opportunities (state w'))) ∈ kanban_columns (state w').
Proof.
  intros Ho Hi Hnext Hs w'. subst w'.
  assert (moveStatus (Op.id o) 1 w
          = patchLocal (Op.id o) {[ "status" := VStr next ]} w) as ->.
  { rewrite (moveStatus_found w (Op.id o) 1 i s Hi Hs).
    unfold at_index. destruct (Z.ltb_spec (Z.of_nat i + 1) 0); [lia|].
    replace (Z.to_nat (Z.of_nat i + 1)) with (S i) by lia.
    by rewrite Hnext. }
  assert (s ≠ next) as Hne.
  { intros ->. pose proof PIPELINE_STATUSES_NoDup as Hnd.
    pose proof (NoDup_lookup _ _ _ _ Hnd Hi Hnext). lia. }
  rewrite !list_elem_of_filter, !has_status_true, status_after_patch.
  split; [done|]. split; [naive_solver|].
  split; apply kanban_columns_elem; (split; [|done]);
    eapply list_elem_of_lookup_2; eauto.
Qed.

Lemma moveStatus_moves_the_card_witness :
  let w := {| state := dated_state; localStorage := Absent |} in
  let o := Op.Build_t "proche" (VStr "Sans titre") "" "" "" ""
             "2024-06-01" (VStr "")
             (VObj {[ "id" := VStr "proche";
                      "deadline" := VStr "2024-06-01" ]}) in
  o ∈ filter (λ o, has_status (state (moveStatus "proche" 1 w))
                     "En analyse" o = true)
        (opportunities (state (moveStatus "proche" 1 w)))
  ∧ map (λ column, (column.1, map Op.id column.2))
      (kanban_columns (state (moveStatus "proche" 1 w)))
    = [("À qualifier", ["sans-date"; "lointain"]); ("En analyse", ["proche"]);
       ("Go", []); ("No-Go", []); ("Déposé", []); ("Abandonné", [])].
Proof.
  intros w o. split; [|vm_compute; reflexivity].
  apply (moveStatus_moves_the_card w o 0 "À qualifier" "En analyse");
    [vm_compute; right; right; left | reflexivity | reflexivity
    | vm_compute; reflexivity].
Defined.

(** ** Reading the export back *)

Lemma unquote_double_quotes (s : string) :
  unquote (double_quotes s +:+ String dquote EmptyString) = s.
Proof.
  induction s as [|c s IH]; [reflexivity|]. simpl.
  destruct (Ascii.eqb_spec c dquote) as [->|Hc]; simpl.
  - by rewrite IH.
  - apply Ascii.eqb_neq in Hc. by rewrite Hc, IH.
Qed.

Lemma plain_field_unescaped (s : string) :
  string_exists csv_special s = false → csvUnescape s = s.
Proof.
  destruct s as [|c s]; [done|]. simpl. unfold csv_special.
  intros Hs. apply orb_false_iff in Hs as [Hc _].
  repeat apply orb_false_iff in Hc as [Hc _]. by rewrite Hc.
Qed.

Lemma csvUnescape_quoted (s t : string) :
  csvUnescape (String dquote s +:+ t) = unquote (s +:+ t).
Proof. reflexivity. Qed.

(** X26. The escaping loses nothing. A reader that takes a field opening
    with a double quote up to its closing quote, and a doubled quote for
    one, gets back the text that [csvEscape] was given; so two fields with
    different texts never come out as the same text. *)
Theorem csvEscape_reads_back :
  (∀ v, csvUnescape (csvEscape v) = nullish_to_string v) ∧
  (∀ v1 v2, csvEscape v1 = csvEscape v2 →
            nullish_to_string v1 = nullish_to_string v2).
Proof.
  assert (∀ v, csvUnescape (csvEscape v) = nullish_to_string v) as Hback.
  { intros v. unfold csvEscape.
    destruct (string_exists csv_special (nullish_to_string v)) eqn:Hs.
    - rewrite csvUnescape_quoted. apply unquote_double_quotes.
    - by apply plain_field_unescaped. }
  split; [exact Hback|].
  intros v1 v2 Heq. by rewrite <- (Hback v1), <- (Hback v2), Heq.
Qed.

(** ** The dashboard and the drawer *)

Section figures.
Context `{Platform}.

Lemma filteredOpportunities_sort_irrelevant (s : State) (f g : Filters.t) :
  (∀ o, keep s f o = keep s g o) →
  filteredOpportunities s f ≡ₚ filteredOpportunities s g.
Proof.
  intros Hkeep. unfold filteredOpportunities.
  rewrite !js_sort_Permutation.
  induction (opportunities s) as [|o l IH]; [done|].
  rewrite !filter_cons, Hkeep.
  destruct (decide (keep s g o = true)); by rewrite IH.
Qed.
End figures.

(** X27. The three figures of the dashboard: neither the urgent nor the Go
    count exceeds the total, and the total does not exceed the dataset;
    under the urgent filter the urgent count is the total; and none of the
    figures depends on the sort direction. After a load on which every
    source failed the dashboard shows the error card instead of figures,
    while the query still shows the opportunities of before. *)
Theorem dashboard_counts_are_consistent `{Platform} (s : State)
    (f : Filters.t) :
  let '(total, urgent, go) := dashboard_counts s f in
  (urgent ≤ total)%nat ∧ (go ≤ total)%nat
  ∧ (total ≤ length (opportunities s))%nat
  ∧ (Filters.urgent f = true → urgent = total)
  ∧ (∀ fetch,
       (∀ path, path ∈ DATA_CANDIDATES → failed (fetch path) = true) →
       renderDashboard (loadDataset fetch s).1 f = None
       ∧ filteredOpportunities (loadDataset fetch s).1 f
         = filteredOpportunities s f)
  ∧ ∀ sort,
      dashboard_counts s
        {| Filters.search := Filters.search f; Filters.type := Filters.type f;
           Filters.category := Filters.category f;
           Filters.axis := Filters.axis f;
           Filters.territory := Filters.territory f;
           Filters.min := Filters.min f; Filters.max := Filters.max f;
           Filters.urgent := Filters.urgent f; Filters.sort := sort |}
      = (total, urgent, go).
Proof.
  unfold dashboard_counts.
  split; [apply length_filter|]. split; [apply length_filter|].
  split.
  { unfold filteredOpportunities. rewrite js_sort_Permutation.
    apply length_filter. }
  split; [|split].
  - intros Hu. f_equal. apply filter_all, Forall_forall. intros o Ho.
    apply filteredOpportunities_elem in Ho as [_ Hkeep].
    unfold keep in Hkeep. apply andb_true_iff in Hkeep as [_ Hurgent].
    by rewrite Hu in Hurgent.
  - intros fetch Hfail. unfold loadDataset.
    by rewrite (load_from_all_failed _ _ _ Hfail).
  - intros sort.
    set (g := {| Filters.search := Filters.search f; Filters.sort := sort |}).
    assert (filteredOpportunities s g ≡ₚ filteredOpportunities s f) as Hperm
      by (by apply filteredOpportunities_sort_irrelevant).
    by rewrite Hperm.
Qed.

Lemma dashboard_counts_are_consistent_witness :
  let urgent_only :=
    {| Filters.search := ""; Filters.type := ""; Filters.category := "";
       Filters.axis := ""; Filters.territory := ""; Filters.min := "";
       Filters.max := ""; Filters.urgent := true; Filters.sort := "asc" |} in
  @dashboard_counts Host.platform dated_state (no_filter "asc")
  = (3%nat, 0%nat, 0%nat)
  ∧ (@dashboard_counts Host.platform dated_state urgent_only).1.2
    = (@dashboard_counts Host.platform dated_state urgent_only).1.1
  ∧ @renderDashboard Host.platform
      (@loadDataset Host.platform fetch_nothing dated_state).1 urgent_only
    = None
  ∧ @filteredOpportunities Host.platform
      (@loadDataset Host.platform fetch_nothing dated_state).1 urgent_only
    = @filteredOpportunities Host.platform dated_state urgent_only.
Proof.
  intros urgent_only. split; [vm_compute; reflexivity|].
  pose proof (@dashboard_counts_are_consistent Host.platform dated_state
                urgent_only) as Hcounts.
  destruct (@dashboard_counts Host.platform dated_state urgent_only)
    as [[total urgent] go].
  destruct Hcounts as (_ & _ & _ & Hu & Hfailed & _).
  split; [simpl; by apply Hu|].
  apply (Hfailed fetch_nothing).
  intros path Hin. unfold DATA_CANDIDATES in Hin.
  repeat (apply elem_of_cons in Hin as [-> | Hin]; [vm_compute; reflexivity|]).
  by apply elem_of_nil in Hin.
Defined.

(** X28. The drawer opens the earliest opportunity that carries the
    identifier, and none when no opportunity carries it. An opportunity
    that comes after another with the same identifier is therefore never
    the one opened; where identifiers are distinct, every opportunity can
    be opened by its own. *)
Theorem find_opportunity_opens_the_first (s : State) (id : string) :
  (find_opportunity s id = None ↔ id ∉ map Op.id (opportunities s)) ∧
  (∀ o, find_opportunity s id = Some o →
        Op.id o = id
        ∧ ∃ i, opportunities s !! i = Some o
               ∧ ∀ j o', (j < i)%nat → opportunities s !! j = Some o' →
                         Op.id o' ≠ id) ∧
  (∀ i o, opportunities s !! i = Some o → Op.id o = id →
     (∀ j o', (j < i)%nat → opportunities s !! j = Some o' →
              Op.id o' ≠ id) →
     find_opportunity s id = Some o) ∧
  (NoDup (map Op.id (opportunities s)) →
   ∀ o, o ∈ opportunities s → Op.id o = id → find_opportunity s id = Some o).
Proof.
  unfold find_opportunity.
  assert (∀ l i o, l !! i = Some o → Op.id o = id →
            (∀ j o', (j < i)%nat → l !! j = Some o' → Op.id o' ≠ id) →
            List.find (λ o, String.eqb (Op.id o) id) l = Some o) as Hearliest.
  { induction l as [|x l IH]; intros i o Hi Hid Hbefore; [done|]. simpl.
    destruct (String.eqb_spec (Op.id x) id) as [Hx|Hx].
    - destruct i as [|i]; [by injection Hi as <-|].
      by destruct (Hbefore 0%nat x ltac:(lia) eq_refl).
    - destruct i as [|i]; [injection Hi as <-; done|].
      apply (IH i); [done|done|].
      intros j o' Hj Ho'. apply (Hbefore (S j)); [lia|done]. }
  split; [|split; [|split; [apply Hearliest|]]].
  - induction (opportunities s) as [|x l IH]; simpl.
    + split; [intros _; apply not_elem_of_nil|done].
    + destruct (String.eqb_spec (Op.id x) id) as [Hx|Hx].
      * split; [done|]. intros Hnot. exfalso. apply Hnot.
        rewrite Hx. by left.
      * rewrite IH, not_elem_of_cons. naive_solver.
  - induction (opportunities s) as [|x l IH]; intros o; simpl; [done|].
    destruct (String.eqb_spec (Op.id x) id) as [Hx|Hx].
    + intros [= <-]. split; [done|]. exists 0%nat. split; [done|]. lia.
    + intros Hfind. destruct (IH o Hfind) as (Hid & i & Hi & Hbefore).
      split; [done|]. exists (S i). split; [done|].
      intros [|j] o' Hj Ho'; simpl in Ho'.
      * by injection Ho' as <-.
      * apply (Hbefore j); [lia|done].
  - intros Hnd o Ho Hid.
    apply list_elem_of_lookup in Ho as [i Hi].
    apply (Hearliest _ i); [done|done|].
    intros j o' Hj Ho' Hid'.
    assert (i = j); [|lia].
    apply (NoDup_lookup _ i j id Hnd); rewrite list_lookup_fmap.
    + by rewrite Hi; simpl; rewrite Hid.
    + by rewrite Ho'; simpl; rewrite Hid'.
Qed.

Lemma find_opportunity_opens_the_first_witness :
  find_opportunity dated_state "absent" = None
  ∧ Op.deadline <$> find_opportunity dated_state "proche"
    = Some "2024-06-01".
Proof.
  split.
  - apply (find_opportunity_opens_the_first dated_state "absent").
    apply (bool_decide_unpack _). vm_compute. reflexivity.
  - destruct (find_opportunity_opens_the_first dated_state "proche")
      as (_ & _ & _ & Hfind).
    assert (NoDup (map Op.id (opportunities dated_state))) as Hnd
      by (apply (bool_decide_unpack _); vm_compute; reflexivity).
    rewrite (Hfind Hnd
               (Op.Build_t "proche" (VStr "Sans titre") "" "" "" ""
                  "2024-06-01" (VStr "")
                  (VObj {[ "id" := VStr "proche";
                           "deadline" := VStr "2024-06-01" ]})));
      [reflexivity | vm_compute; right; right; left | reflexivity].
Defined.

(** ** Snapshots between stores *)

(** X29. A snapshot carries a store over to another one. Whatever store
    receives what [exportSnapshot] returned for a reachable store, the
    import succeeds and the receiving store ends with the same
    opportunities, the same [meta], the same overlay and hence the same
    merged view as the store the snapshot came from, and with the overlay
    in its durable storage; its own [rawDataPath] and load error stay. *)
Theorem snapshot_carries_the_store_over `{Platform} (w other : Store) :
  reachable w →
  ∃ other',
    importSnapshot (PObject (exportSnapshot (state w))) other
    = Returned other'
    ∧ opportunities (state other') = opportunities (state w)
    ∧ meta (state other') = meta (state w)
    ∧ local (state other') = local (state w)
    ∧ merged_view (state other') = merged_view (state w)
    ∧ localStorage other' = Blob (local (state w))
    ∧ rawDataPath (state other') = rawDataPath (state other)
    ∧ loadError (state other') = loadError (state other).
Proof.
  intros Hw. destruct (reachable_hydrated w Hw) as [Hops Hmeta].
  destruct w as [[m ops l path err] storage]; simpl in Hops, Hmeta.
  unfold importSnapshot, exportSnapshot.
  cbn [mbind option_bind Payload.opportunities Payload.local].
  unfold hydrateFromPayload, hydrate, source_of, js_or.
  cbn [Payload.opportunities Payload._meta state meta opportunities set_meta].
  rewrite Hmeta, Hops.
  eexists. split; [reflexivity|]. by repeat split.
Qed.

Lemma snapshot_carries_the_store_over_witness :
  ∃ other',
    @importSnapshot Host.platform
      (PObject (exportSnapshot (state sample_store))) (createStore Corrupt)
    = Returned other'
    ∧ opportunities (state other') = opportunities (state sample_store)
    ∧ local (state other') = local (state sample_store).
Proof.
  destruct (@snapshot_carries_the_store_over Host.platform sample_store
              (createStore Corrupt))
    as (other' & Himport & Hops & _ & Hlocal & _).
  { unfold sample_store. repeat apply reachable_run. apply reachable_create. }
  exists other'. split; [exact Himport|]. split; [exact Hops | exact Hlocal].
Defined.

(** X30. What was loaded is what is exported. After a load that ends
    without load error, the snapshot lists the raw records of the payload
    that was loaded, unchanged and in order, together with the live
    overlay. *)
Theorem export_returns_the_loaded_records `{Platform}
    (fetch : string → fetched) (s : State) :
  loadError (loadDataset fetch s).1 = "" →
  ∃ path p,
    rawDataPath (loadDataset fetch s).1 = Some path
    ∧ fetch path = Response true (Some p)
    ∧ Payload.opportunities (exportSnapshot (loadDataset fetch s).1)
      = Some (VArr (records_of p))
    ∧ Payload.local (exportSnapshot (loadDataset fetch s).1)
      = Some (local s).
Proof.
  intros Herr. unfold loadDataset in *.
  destruct (load_from_outcome fetch DATA_CANDIDATES s)
    as [(_ & path & p & _ & Hpath & Hfetch & Hn) | (Herr' & _)].
  - exists path, p. split; [done|]. split; [done|].
    unfold exportSnapshot. cbn [Payload.opportunities Payload.local].
    by rewrite (normalize_from_raw _ _ _ Hn), load_from_local.
  - rewrite Herr in Herr'. discriminate.
Qed.

Lemma export_returns_the_loaded_records_witness :
  Payload.opportunities
    (exportSnapshot
       (@loadDataset Host.platform fetch_second (state (createStore Absent))).1)
  = Some (VArr [VObj {[ "label" := VStr "Appel A" ]};
                VObj {[ "label" := VStr "Appel B" ]}]).
Proof.
  destruct (@export_returns_the_loaded_records Host.platform fetch_second
              (state (createStore Absent)))
    as (path & p & Hpath & Hfetch & Hexport & _); [vm_compute; reflexivity|].
  rewrite Hexport. f_equal. f_equal.
  vm_compute in Hpath. injection Hpath as <-.
  vm_compute in Hfetch. by injection Hfetch as <-.
Defined.
